(** * gitlab-merger-bot: the request executor and the job queue

    A shallow embedding of [src/GitlabApi.ts] (the retry loop of
    [sendRawRequest], [validateResponseStatus] and the two typed request
    helpers) and of the [Queue] class ([appendJob] and its drain loop),
    with the properties the specification states about them. *)

From Stdlib Require Import String Ascii.
From Stdlib Require Import ZArith NArith Bool List Lia.
Import ListNotations.
Open Scope string_scope.
Open Scope list_scope.
Open Scope Z_scope.

(* ================================================================== *)
(** * GitlabApi *)
(* ================================================================== *)

Module GitlabApi.

(** ** Values thrown

    The code throws [Error] objects that differ only by their message, and
    lets the errors of [fetch] through.  One constructor per [throw] site;
    the interpolated values are kept as arguments. *)
Inductive Thrown : Type :=
| FetchError (type : string)
    (* node-fetch's FetchError; [type] is its [.type] field *)
| OtherError (message : string)
    (* any other value [fetch] rejects with *)
| UnexpectedStatusAfterRetries (status retries : Z)
    (* `Unexpected status code ${status} after ${retries} retries` *)
| Unauthorized
    (* 'Unauthorized' *)
| Forbidden
    (* 'Forbidden' *)
| UnexpectedStatus (status : Z)
    (* `Unexpected status code: ${status}` *)
| InvalidResponse
    (* 'Invalid response' *)
| TypeError.
    (* reading a property of null *)

(** A computation that returns or throws. *)
Inductive Result (A : Type) : Type :=
| Ok (a : A)
| Throw (e : Thrown).
Arguments Ok {A} a.
Arguments Throw {A} e.

Definition bind {A B : Type} (r : Result A) (k : A -> Result B) : Result B :=
  match r with
  | Ok a => k a
  | Throw e => Throw e
  end.

Notation "x <- r ;; k" := (bind r (fun x => k))
  (at level 61, r at next level, right associativity).

(** ** Decoded JSON bodies *)
#[warnings="-register-all"]
Inductive Json : Type :=
| JNull
| JBool (b : bool)
| JNumber (n : Z)
| JString (s : string)
| JArray (items : list Json)
| JObject (fields : list (string * Json)).

(** A [Response] as far as this file reads it: [response.status] and the
    outcome of [response.json()]. *)
Record Response : Type := mkResponse {
  status : Z;
  json : Result Json
}.

(** ** sendRawRequest *)

Definition numberOfRequestRetries : Z := 20.
Definition sleepTimeout : Z := 10000.

(** What the loop does to the outside world, in order. *)
Inductive Effect : Type :=
| Fetch (attempt : Z)
| Sleep (ms : Z).

(** [e instanceof FetchError && ['system', 'request-timeout'].includes(e.type)] *)
Definition isTransient (e : Thrown) : bool :=
  match e with
  | FetchError type => (type =? "system")%string || (type =? "request-timeout")%string
  | _ => false
  end.

Section RetryLoop.

(** The network: the outcome of [await fetch(requestUrl, options)] at each
    attempt of one logical request, indexed by the value [retryCounter]
    has at that attempt (1, 2, ...). *)
Variable fetch : Z -> Result Response.

(** The [while (true)] loop, from the top of an iteration, with the value
    of [retryCounter] before its increment.  [fuel] bounds the number of
    iterations; [None] is fuel exhausted. *)
Fixpoint retryLoop (fuel : nat) (retryCounter : Z)
  : option (Result Response * list Effect) :=
  match fuel with
  | O => None
  | S fuel' =>
    let retryCounter := retryCounter + 1 in
    (* await sleep(sleepTimeout); continue; *)
    let sleepAndContinue :=
      match retryLoop fuel' retryCounter with
      | Some (r, log) => Some (r, Fetch retryCounter :: Sleep sleepTimeout :: log)
      | None => None
      end in
    (* the catch block *)
    let catch (e : Thrown) :=
      if (retryCounter <? numberOfRequestRetries) && isTransient e
      then sleepAndContinue
      else Some (Throw e, [Fetch retryCounter]) in
    match fetch retryCounter with
    | Ok response =>
      if status response >=? 500 then
        if retryCounter >=? numberOfRequestRetries
        then catch (UnexpectedStatusAfterRetries (status response) numberOfRequestRetries)
        else sleepAndContinue
      else Some (Ok response, [Fetch retryCounter])
    | Throw e => catch e
    end
  end.

(** [let retryCounter = 0; while (true) { ... }] *)
Definition sendRawRequest (fuel : nat) : option (Result Response * list Effect) :=
  retryLoop fuel 0.

End RetryLoop.

(** ** validateResponseStatus *)
Definition validateResponseStatus (response : Response) : Result unit :=
  if status response =? 401 then Throw Unauthorized
  else if status response =? 403 then Throw Forbidden
  else if (status response <? 200) || (status response >=? 300)
       then Throw (UnexpectedStatus (status response))
  else Ok tt.

(** ** The typed request helpers *)

(** [typeof data] *)
Definition typeof (data : Json) : string :=
  match data with
  | JNull => "object"
  | JBool _ => "boolean"
  | JNumber _ => "number"
  | JString _ => "string"
  | JArray _ => "object"
  | JObject _ => "object"
  end.

Fixpoint hasField (name : string) (fields : list (string * Json)) : bool :=
  match fields with
  | [] => false
  | (k, _) :: rest => (k =? name)%string || hasField name rest
  end.

(** [data.id === undefined].  Booleans, numbers, strings and arrays have no
    [id] property; a decoded object has one when the body had the field (a
    JSON value is never [undefined]); reading it off [null] throws. *)
Definition idIsUndefined (data : Json) : Result bool :=
  match data with
  | JNull => Throw TypeError
  | JObject fields => Ok (negb (hasField "id" fields))
  | _ => Ok true
  end.

(** [Array.isArray(data)] *)
Definition isArray (data : Json) : bool :=
  match data with
  | JArray _ => true
  | _ => false
  end.

(** The part of the helpers after [sendRawRequest] has returned. *)
Definition singleResponse (raw : Result Response) : Result Json :=
  response <- raw ;;
  _ <- validateResponseStatus response ;;
  data <- json response ;;
  (* typeof data !== 'object' && data.id === undefined *)
  invalid <- (if negb (typeof data =? "object")%string
              then idIsUndefined data else Ok false) ;;
  if invalid then Throw InvalidResponse else Ok data.

Definition multiResponse (raw : Result Response) : Result Json :=
  response <- raw ;;
  _ <- validateResponseStatus response ;;
  data <- json response ;;
  if negb (isArray data) then Throw InvalidResponse else Ok data.

Definition sendRequestWithSingleResponse (fetch : Z -> Result Response) (fuel : nat)
  : option (Result Json * list Effect) :=
  match sendRawRequest fetch fuel with
  | Some (raw, log) => Some (singleResponse raw, log)
  | None => None
  end.

Definition sendRequestWithMultiResponse (fetch : Z -> Result Response) (fuel : nat)
  : option (Result Json * list Effect) :=
  match sendRawRequest fetch fuel with
  | Some (raw, log) => Some (multiResponse raw, log)
  | None => None
  end.

(** ** Vocabulary of the statements *)

(** An attempt after which the loop goes round again when attempts remain. *)
Definition retryable (outcome : Result Response) : bool :=
  match outcome with
  | Ok response => status response >=? 500
  | Throw e => isTransient e
  end.

(** What is thrown when the last attempt is retryable too. *)
Definition exhaustedError (outcome : Result Response) : Thrown :=
  match outcome with
  | Ok response => UnexpectedStatusAfterRetries (status response) numberOfRequestRetries
  | Throw e => e
  end.

(** [n] attempts numbered from [first], one sleep between two consecutive
    ones. *)
Fixpoint backoffLog (first : Z) (n : nat) : list Effect :=
  match n with
  | O => []
  | S O => [Fetch first]
  | S n' => Fetch first :: Sleep sleepTimeout :: backoffLog (first + 1) n'
  end.

Definition isSleep (e : Effect) : bool :=
  match e with Sleep _ => true | Fetch _ => false end.

Definition attempts (log : list Effect) : nat :=
  List.length (filter (fun e => negb (isSleep e)) log).

Definition sleeps (log : list Effect) : list Z :=
  flat_map (fun e => match e with Sleep ms => [ms] | Fetch _ => [] end) log.

(** ** rebaseMergeRequest

    The one endpoint that does not go through the typed helpers: the raw
    request, then the status check; [response.json()] is not called. *)
Definition rebaseMergeRequest (fetch : Z -> Result Response) (fuel : nat)
  : option (Result unit * list Effect) :=
  match sendRawRequest fetch fuel with
  | Some (raw, log) => Some (response <- raw ;; validateResponseStatus response, log)
  | None => None
  end.

(** How the loop came to its result [r] at the attempt whose outcome was
    [last]: a response below 500 is returned; an error of [fetch] is
    thrown again when it is not transient or the attempt is the twentieth;
    a status of 500 or more at the twentieth attempt becomes the error
    that carries it. *)
Definition decidedBy (last : Result Response) (attempt : Z) (r : Result Response)
  : Prop :=
  match r with
  | Ok response => last = Ok response /\ status response < 500
  | Throw e =>
    (last = Throw e /\ (isTransient e = false \/ attempt = numberOfRequestRetries)) \/
    (attempt = numberOfRequestRetries /\
     exists response,
       last = Ok response /\ 500 <= status response /\
       e = UnexpectedStatusAfterRetries (status response) numberOfRequestRetries)
  end.

(** Two outcomes of [fetch] that differ at most by the body of the
    response. *)
Definition sameButBody (a b : Result Response) : Prop :=
  match a, b with
  | Ok r1, Ok r2 => status r1 = status r2
  | Throw e1, Throw e2 => e1 = e2
  | _, _ => False
  end.

End GitlabApi.

(* ================================================================== *)
(** * Queue *)
(* ================================================================== *)

Module Queue.

(** ** The object [this.jobs]

    [jobs] is a plain object used as a map from job ids to jobs.  The drain
    loop reads it through [Object.keys], which lists the own property names
    that are array indices (canonical decimal numerals below 2^32 - 1) in
    ascending numeric order, and then the other names in the order the
    properties were created. *)

Definition digitValue (c : ascii) : option N :=
  let n := N_of_ascii c in
  if ((48 <=? n) && (n <=? 57))%N then Some (n - 48)%N else None.

Fixpoint parseDigits (s : string) (acc : N) : option N :=
  match s with
  | EmptyString => Some acc
  | String c rest =>
    match digitValue c with
    | Some d => parseDigits rest (10 * acc + d)%N
    | None => None
    end
  end.

(** The array index a property name denotes, if it is one. *)
Definition arrayIndex (key : string) : option N :=
  match key with
  | EmptyString => None
  | String c rest =>
    if (c =? "0")%char
    then match rest with EmptyString => Some 0%N | _ => None end
    else match parseDigits key 0 with
         | Some n => if (n <? 4294967295)%N then Some n else None
         | None => None
         end
  end.

(** Whether a property created now under the name [key] is listed before
    the existing property [other]. *)
Definition listedBefore (key other : string) : bool :=
  match arrayIndex key, arrayIndex other with
  | Some n, Some m => (n <? m)%N
  | Some _, None => true
  | None, _ => false
  end.

Section WithJob.

(** The type [Job] of './types' is not among the sources: it is a parameter
    here.  A job is a zero-argument asynchronous callable that may fail:
    calling it runs its body up to its first suspension and returns a
    promise, which settles later, fulfilled or rejected.  The queue never
    looks inside a job. *)
Variable Job : Type.

(** A job is a function, hence an object with properties of its own.
    [shadows job key] tells that an object whose prototype is [job] cannot
    be given a property [key] by assignment, because [job] or its own
    prototype chain holds a read-only property or an accessor of that
    name (for a function: [name], [length], ...).  It matters only once a
    job has become the prototype of [this.jobs]; see [assignJob]. *)
Variable shadows : Job -> string -> bool.

(** The own properties of the object, in the order [Object.keys] lists
    them. *)
Definition JsObject : Type := list (string * Job).

(** [Object.keys(o)] *)
Definition keys (o : JsObject) : list string := map fst o.

(** [o[key]] for an own property *)
Fixpoint lookup (o : JsObject) (key : string) : option Job :=
  match o with
  | [] => None
  | (k, j) :: rest => if (k =? key)%string then Some j else lookup rest key
  end.

Definition hasOwn (o : JsObject) (key : string) : bool :=
  match lookup o key with Some _ => true | None => false end.

(** [o[key] = job] where [key] is an own property: the value changes, the
    place in the listing does not. *)
Fixpoint overwrite (o : JsObject) (key : string) (job : Job) : JsObject :=
  match o with
  | [] => []
  | (k, j) :: rest =>
    if (k =? key)%string then (k, job) :: rest else (k, j) :: overwrite rest key job
  end.

(** [o[key] = job] where [key] is not an own property yet. *)
Fixpoint create (o : JsObject) (key : string) (job : Job) : JsObject :=
  match o with
  | [] => [(key, job)]
  | (k, j) :: rest =>
    if listedBefore key k then (key, job) :: o else (k, j) :: create rest key job
  end.

(** [o[key] = job] when the assignment writes an own property. *)
Definition assign (o : JsObject) (key : string) (job : Job) : JsObject :=
  if hasOwn o key then overwrite o key job else create o key job.

(** [delete o[key]] *)
Definition deleteProperty (o : JsObject) (key : string) : JsObject :=
  filter (fun p => negb (fst p =? key)%string) o.

(** What [this.jobs[jobId] = job] does.  The name [__proto__] is the
    accessor of [Object.prototype]: assigning it writes no own property
    and makes [job] the prototype of the object.  Any other name that is
    an own property is overwritten.  A new name becomes an own property,
    unless the prototype, once it is a job, shadows it: the class body is
    strict code, and the assignment throws a TypeError. *)
Inductive Assignment : Type :=
| Stored (o : JsObject)
| PrototypeSet
| Refused.

Definition assignJob (proto : option Job) (o : JsObject) (key : string) (job : Job)
  : Assignment :=
  if (key =? "__proto__")%string then PrototypeSet
  else if negb (hasOwn o key) &&
          match proto with Some p => shadows p key | None => false end
       then Refused
       else Stored (assign o key job).

(** ** The queue and its drain loops

    [promise] and [jobs] are the fields of the class ([promise] is [true]
    when [this.promise] is not undefined); [prototype] is the job that has
    become the prototype of [this.jobs], if any.

    A drain loop is an async function.  It runs, from the top of
    [while (true)], up to the call [currentJob()]; the body of the job
    then runs up to its first suspension and returns its promise; the
    loop is suspended at [await] until that promise settles.  [calls] is
    the stack of the job bodies that are running their synchronous part,
    innermost first, each with the loop that called it; [loops] are the
    loops suspended at [await].  For each loop: the key [jobIds[0]] it
    holds, whether [reject] has been called on its promise, and, for a
    body being called, whether the call is made from inside the promise
    executor (the first turn of a loop, with [this.promise] not assigned
    yet).

    [reactions] counts the promises fulfilled by [resolve()] whose
    [.then(this.onEmptyQueue)] reaction is queued and has not run yet. *)
Record Loop : Type := mkLoop {
  loopKey : string;
  loopRejected : bool
}.

Record Call : Type := mkCall {
  callKey : string;
  callRejected : bool;
  inExecutor : bool
}.

Record Queue : Type := mkQueue {
  promise : bool;
  jobs : JsObject;
  prototype : option Job;
  loops : list Loop;
  calls : list Call;
  reactions : nat
}.

(** What an observer sees: a job body called, [onEmptyQueue] called, a
    TypeError thrown by [appendJob]. *)
Inductive Output : Type :=
| Started (jobId : string) (job : Job)
| OnEmptyQueue
| TypeErrorThrown.

(** [new Queue(onEmptyQueue)] *)
Definition newQueue : Queue :=
  {| promise := false; jobs := []; prototype := None;
     loops := []; calls := []; reactions := 0 |}.

(** One turn of [while (true)], from its top to the call [currentJob()]
    or to [return], for a loop on whose promise [reject] has or has not
    been called, inside the promise executor or not.

    With no key left: [this.promise = undefined; resolve(); return].
    [resolve()] fulfils the promise unless it was rejected, and the
    reaction [.then(this.onEmptyQueue)] is then queued.  When this happens
    inside the executor, [appendJob] goes on after it and assigns
    [this.promise]. *)
Definition loopTurn (rejected executor : bool) (q : Queue) : Queue * list Output :=
  match jobs q with
  | [] =>
    ({| promise := executor; jobs := []; prototype := prototype q;
        loops := loops q; calls := calls q;
        reactions := if rejected then reactions q else S (reactions q) |}, [])
  | (jobId, currentJob) :: _ =>
    ({| promise := promise q; jobs := jobs q; prototype := prototype q;
        loops := loops q;
        calls := mkCall jobId rejected executor :: calls q;
        reactions := reactions q |},
     [Started jobId currentJob])
  end.

(** [appendJob(jobId, job)]: the assignment, then, when [this.promise] is
    undefined, [new Promise(executor)], whose executor runs the first turn
    of a new loop at once.  [this.promise] is assigned when the executor
    has returned, that is when the body it called has returned (see
    [returned]). *)
Definition appendJob (jobId : string) (job : Job) (q : Queue) : Queue * list Output :=
  let start (q1 : Queue) := if promise q1 then (q1, []) else loopTurn false true q1 in
  match assignJob (prototype q) (jobs q) jobId job with
  | Refused => (q, [TypeErrorThrown])
  | PrototypeSet =>
    start {| promise := promise q; jobs := jobs q; prototype := Some job;
             loops := loops q; calls := calls q; reactions := reactions q |}
  | Stored o =>
    start {| promise := promise q; jobs := o; prototype := prototype q;
             loops := loops q; calls := calls q; reactions := reactions q |}
  end.

(** The body on top of the stack returns its promise: its loop is now
    suspended at [await currentJob()].  If the call was made inside the
    executor, the executor returns too and
    [this.promise = new Promise(...).then(...)] is carried out. *)
Definition returned (q : Queue) : option (Queue * list Output) :=
  match calls q with
  | [] => None
  | c :: rest =>
    Some ({| promise := if inExecutor c then true else promise q;
             jobs := jobs q; prototype := prototype q;
             loops := loops q ++ [mkLoop (callKey c) (callRejected c)];
             calls := rest; reactions := reactions q |}, [])
  end.

Definition removeNth {A : Type} (i : nat) (l : list A) : list A :=
  firstn i l ++ skipn (S i) l.

(** The promise awaited by the loop number [i] has settled and the loop
    is resumed: [catch (e) { reject(e); }] when the job threw, then
    [delete this.jobs[jobIds[0]]] and the next turn.  A loop is resumed as
    a microtask, so no job body is in its synchronous part. *)
Definition resume (i : nat) (ok : bool) (q : Queue) : option (Queue * list Output) :=
  match calls q, nth_error (loops q) i with
  | [], Some l =>
    Some (loopTurn (if ok then loopRejected l else true) false
            {| promise := promise q;
               jobs := deleteProperty (jobs q) (loopKey l);
               prototype := prototype q;
               loops := removeNth i (loops q);
               calls := []; reactions := reactions q |})
  | _, _ => None
  end.

(** A queued reaction runs: [onEmptyQueue] is called.  A microtask too. *)
Definition react (q : Queue) : option (Queue * list Output) :=
  match calls q, reactions q with
  | [], S n =>
    Some ({| promise := promise q; jobs := jobs q; prototype := prototype q;
             loops := loops q; calls := []; reactions := n |}, [OnEmptyQueue])
  | _, _ => None
  end.

(** What happens to a queue.  [AppendJob]: [appendJob] is called, by the
    job body on top of the stack when there is one, by any other code
    otherwise.  [Returned]: the body on top of the stack reaches its first
    suspension.  [Settled i ok]: the job awaited by loop [i] completes
    ([ok]) or throws.  [Reaction]: a queued [onEmptyQueue] reaction
    runs. *)
Inductive Event : Type :=
| AppendJob (jobId : string) (job : Job)
| Returned
| Settled (i : nat) (ok : bool)
| Reaction.

Definition step (q : Queue) (e : Event) : option (Queue * list Output) :=
  match e with
  | AppendJob jobId job => Some (appendJob jobId job q)
  | Returned => returned q
  | Settled i ok => resume i ok q
  | Reaction => react q
  end.

Fixpoint run (q : Queue) (events : list Event) : option (Queue * list Output) :=
  match events with
  | [] => Some (q, [])
  | e :: rest =>
    match step q e with
    | None => None
    | Some (q1, out1) =>
      match run q1 rest with
      | None => None
      | Some (q2, out2) => Some (q2, out1 ++ out2)
      end
    end
  end.

(** ** Vocabulary of the statements *)

Definition reachable (q : Queue) : Prop :=
  exists events out, run newQueue events = Some (q, out).

Definition isAppend (e : Event) : bool :=
  match e with
  | AppendJob _ _ => true
  | _ => false
  end.

Definition isAppendOf (key : string) (e : Event) : bool :=
  match e with
  | AppendJob jobId _ => (jobId =? key)%string
  | _ => false
  end.

(** No event of the list is an [appendJob] under [key]. *)
Definition noAppendOf (key : string) (events : list Event) : bool :=
  forallb (fun e => negb (isAppendOf key e)) events.

Definition isFailure (e : Event) : bool :=
  match e with
  | Settled _ ok => negb ok
  | _ => false
  end.

Definition isStartOf (key : string) (o : Output) : bool :=
  match o with
  | Started jobId _ => (jobId =? key)%string
  | _ => false
  end.

(** The executions of job bodies under [key] in an output. *)
Definition startedFor (key : string) (out : list Output) : list Output :=
  filter (isStartOf key) out.

Definition isStart (o : Output) : bool :=
  match o with
  | Started _ _ => true
  | _ => false
  end.

(** How many job bodies were called in an output. *)
Definition executions (out : list Output) : nat :=
  List.length (filter isStart out).

Definition isCallback (o : Output) : bool :=
  match o with
  | OnEmptyQueue => true
  | _ => false
  end.

(** How many times [onEmptyQueue] was called in an output. *)
Definition callbacks (out : list Output) : nat :=
  List.length (filter isCallback out).

(** The entries of the mapping run in listing order. *)
Definition starts (o : JsObject) : list Output :=
  map (fun p => Started (fst p) (snd p)) o.

Definition allOk (oks : list bool) : bool := forallb (fun ok => ok) oks.

(** The only drain loop of the queue, when there is exactly one, suspended
    or calling a job: the key it holds and whether its promise is
    rejected. *)
Definition soleLoop (q : Queue) : option (string * bool) :=
  match loops q, calls q with
  | [l], [] => Some (loopKey l, loopRejected l)
  | [], [c] => Some (callKey c, callRejected c)
  | _, _ => None
  end.

Definition soleKey (q : Queue) : option string := option_map fst (soleLoop q).

Definition holdsKey (key : string) (q : Queue) : bool :=
  match soleKey q with
  | Some jobId => (jobId =? key)%string
  | None => false
  end.

(** The assignment [this.jobs[key] = job] writes an own property. *)
Definition stores (q : Queue) (key : string) : bool :=
  negb (key =? "__proto__")%string &&
  (hasOwn (jobs q) key ||
   match prototype q with Some p => negb (shadows p key) | None => true end).

(** With a single loop: the execution the queue still owes to [key], that
    is the job stored under it, unless the loop is executing under that
    key (the entry is then the one the loop deletes when it resumes). *)
Definition owed (key : string) (q : Queue) : list Output :=
  match lookup (jobs q) key with
  | Some job => if holdsKey key q then [] else [Started key job]
  | None => []
  end.

(** The jobs of a single loop settle one after the other, each started
    job returning its promise before it settles, and nothing else
    happens. *)
Definition settleAll (oks : list bool) : list Event :=
  match oks with
  | [] => []
  | ok :: rest => Settled 0 ok :: flat_map (fun o => [Returned; Settled 0 o]) rest
  end.

(** One [appendJob] per entry, in order. *)
Definition appendAll (entries : JsObject) : list Event :=
  map (fun p => AppendJob (fst p) (snd p)) entries.

(** One drain cycle with a single loop: the first event makes the mapping
    non-empty; afterwards no [appendJob] is called while [this.promise]
    is still unassigned (a call made then, by the first job before its
    first suspension, would start a second loop); the cycle ends with the
    event that leaves the mapping empty again. *)
Fixpoint cycleRest (q : Queue) (events : list Event) : option (Queue * list Output) :=
  match events with
  | [] => None
  | e :: rest =>
    if isAppend e && negb (promise q) then None
    else
      match step q e with
      | None => None
      | Some (q1, out1) =>
        match jobs q1, rest with
        | [], [] => Some (q1, out1)
        | _ :: _, _ :: _ =>
          match cycleRest q1 rest with
          | None => None
          | Some (q2, out2) => Some (q2, out1 ++ out2)
          end
        | _, _ => None
        end
      end
  end.

Definition cycle (q : Queue) (events : list Event) : option (Queue * list Output) :=
  match events with
  | [] => None
  | e :: rest =>
    match step q e with
    | None => None
    | Some (q1, out1) =>
      match jobs q1 with
      | [] => None
      | _ :: _ =>
        match cycleRest q1 rest with
        | None => None
        | Some (q2, out2) => Some (q2, out1 ++ out2)
        end
      end
    end
  end.

End WithJob.

Arguments lookup {Job}.
Arguments hasOwn {Job}.
Arguments keys {Job}.
Arguments overwrite {Job}.
Arguments create {Job}.
Arguments assign {Job}.
Arguments deleteProperty {Job}.
Arguments Stored {Job}.
Arguments PrototypeSet {Job}.
Arguments Refused {Job}.
Arguments assignJob {Job}.
Arguments mkQueue {Job}.
Arguments promise {Job}.
Arguments jobs {Job}.
Arguments prototype {Job}.
Arguments loops {Job}.
Arguments calls {Job}.
Arguments reactions {Job}.
Arguments Started {Job}.
Arguments OnEmptyQueue {Job}.
Arguments TypeErrorThrown {Job}.
Arguments newQueue {Job}.
Arguments loopTurn {Job}.
Arguments appendJob {Job}.
Arguments returned {Job}.
Arguments resume {Job}.
Arguments react {Job}.
Arguments AppendJob {Job}.
Arguments Returned {Job}.
Arguments Settled {Job}.
Arguments Reaction {Job}.
Arguments step {Job}.
Arguments run {Job}.
Arguments reachable {Job}.
Arguments isAppend {Job}.
Arguments isAppendOf {Job}.
Arguments noAppendOf {Job}.
Arguments isFailure {Job}.
Arguments isStartOf {Job}.
Arguments startedFor {Job}.
Arguments isStart {Job}.
Arguments executions {Job}.
Arguments isCallback {Job}.
Arguments callbacks {Job}.
Arguments starts {Job}.
Arguments soleLoop {Job}.
Arguments soleKey {Job}.
Arguments holdsKey {Job}.
Arguments stores {Job}.
Arguments owed {Job}.
Arguments settleAll {Job}.
Arguments appendAll {Job}.
Arguments cycleRest {Job}.
Arguments cycle {Job}.

(** For the examples: jobs are numbered, and each is a plain function,
    whose read-only properties are [name] and [length]. *)
Definition plainFunction (job : nat) (key : string) : bool :=
  (key =? "name")%string || (key =? "length")%string.

End Queue.

(* ================================================================== *)
(** * Properties of the request executor *)
(* ================================================================== *)

Module GitlabApiSpec.
Import GitlabApi.

(** One iteration of the loop, unfolded. *)
Lemma retryLoop_unfold fetch fuel c :
  retryLoop fetch (S fuel) c =
  let sleepAndContinue :=
    match retryLoop fetch fuel (c + 1) with
    | Some (r, log) => Some (r, Fetch (c + 1) :: Sleep sleepTimeout :: log)
    | None => None
    end in
  let catch (e : Thrown) :=
    if (c + 1 <? numberOfRequestRetries) && isTransient e
    then sleepAndContinue
    else Some (Throw e, [Fetch (c + 1)]) in
  match fetch (c + 1) with
  | Ok response =>
    if status response >=? 500 then
      if c + 1 >=? numberOfRequestRetries
      then catch (UnexpectedStatusAfterRetries (status response) numberOfRequestRetries)
      else sleepAndContinue
    else Some (Ok response, [Fetch (c + 1)])
  | Throw e => catch e
  end.
Proof. reflexivity. Qed.

(** A retryable attempt with attempts left: sleep, then the next turn. *)
Lemma retryLoop_retry fetch fuel c :
  c + 1 < numberOfRequestRetries ->
  retryable (fetch (c + 1)) = true ->
  retryLoop fetch (S fuel) c =
  match retryLoop fetch fuel (c + 1) with
  | Some (r, log) => Some (r, Fetch (c + 1) :: Sleep sleepTimeout :: log)
  | None => None
  end.
Proof.
  intros Hlt Hretry. rewrite retryLoop_unfold. cbv zeta.
  assert (Hltb : (c + 1 <? numberOfRequestRetries) = true) by (apply Z.ltb_lt; lia).
  assert (Hgeb : (c + 1 >=? numberOfRequestRetries) = false)
    by (rewrite Z.geb_leb; apply Z.leb_gt; lia).
  destruct (fetch (c + 1)) as [response | e]; simpl in Hretry.
  - rewrite Hretry, Hgeb. reflexivity.
  - rewrite Hltb, Hretry. reflexivity.
Qed.

(** A retryable attempt that is the last one: its error is thrown. *)
Lemma retryLoop_last fetch fuel c :
  c + 1 = numberOfRequestRetries ->
  retryable (fetch (c + 1)) = true ->
  retryLoop fetch (S fuel) c =
  Some (Throw (exhaustedError (fetch (c + 1))), [Fetch (c + 1)]).
Proof.
  intros Heq Hretry. rewrite retryLoop_unfold. cbv zeta.
  rewrite Heq in *.
  destruct (fetch numberOfRequestRetries) as [response | e]; simpl in Hretry |- *.
  - rewrite Hretry. reflexivity.
  - reflexivity.
Qed.

(** A response below 500 is returned by the turn that receives it. *)
Lemma retryLoop_return fetch fuel c response :
  fetch (c + 1) = Ok response ->
  status response < 500 ->
  retryLoop fetch (S fuel) c = Some (Ok response, [Fetch (c + 1)]).
Proof.
  intros Hfetch Hlt. rewrite retryLoop_unfold. cbv zeta. rewrite Hfetch.
  assert (Hgeb : (status response >=? 500) = false)
    by (rewrite Z.geb_leb; apply Z.leb_gt; lia).
  rewrite Hgeb. reflexivity.
Qed.

Lemma backoffLog_cons first n :
  backoffLog first (S (S n)) =
  Fetch first :: Sleep sleepTimeout :: backoffLog (first + 1) (S n).
Proof. reflexivity. Qed.

Lemma retryLoop_exhausts fetch :
  forall (n fuel : nat) (c : Z),
    (n < fuel)%nat ->
    c + Z.of_nat (S n) = numberOfRequestRetries ->
    (forall i, c < i <= numberOfRequestRetries -> retryable (fetch i) = true) ->
    retryLoop fetch fuel c =
    Some (Throw (exhaustedError (fetch numberOfRequestRetries)), backoffLog (c + 1) (S n)).
Proof.
  induction n as [| n IH]; intros fuel c Hfuel Hc Hall;
    destruct fuel as [| fuel]; try lia.
  - assert (Hlast : c + 1 = numberOfRequestRetries) by lia.
    rewrite retryLoop_last by (auto; apply Hall; lia).
    rewrite Hlast. reflexivity.
  - rewrite retryLoop_retry by (try apply Hall; lia).
    rewrite (IH fuel (c + 1)) by (try lia; intros i Hi; apply Hall; lia).
    rewrite backoffLog_cons. reflexivity.
Qed.

Lemma retryLoop_succeeds fetch response :
  forall (n fuel : nat) (c : Z),
    (n < fuel)%nat ->
    c + Z.of_nat n < numberOfRequestRetries ->
    (forall i, c < i <= c + Z.of_nat n -> retryable (fetch i) = true) ->
    fetch (c + Z.of_nat n + 1) = Ok response ->
    status response < 500 ->
    retryLoop fetch fuel c = Some (Ok response, backoffLog (c + 1) (S n)).
Proof.
  induction n as [| n IH]; intros fuel c Hfuel Hc Hfirst Hfetch Hstatus;
    destruct fuel as [| fuel]; try lia.
  - replace (c + Z.of_nat 0 + 1) with (c + 1) in Hfetch by lia.
    rewrite (retryLoop_return _ _ _ response) by assumption. reflexivity.
  - rewrite retryLoop_retry by (try apply Hfirst; lia).
    rewrite (IH fuel (c + 1)).
    + rewrite backoffLog_cons. reflexivity.
    + lia.
    + lia.
    + intros i Hi. apply Hfirst. lia.
    + rewrite <- Hfetch. f_equal. lia.
    + assumption.
Qed.

Lemma attempts_backoffLog : forall n first, attempts (backoffLog first n) = n.
Proof.
  induction n as [| [| n] IH]; intros first; try reflexivity.
  rewrite backoffLog_cons. unfold attempts in *. simpl filter. simpl List.length.
  f_equal. apply (IH (first + 1)).
Qed.

Lemma sleeps_backoffLog :
  forall n first, sleeps (backoffLog first (S n)) = repeat sleepTimeout n.
Proof.
  induction n as [| n IH]; intros first; try reflexivity.
  rewrite backoffLog_cons. unfold sleeps in *. simpl flat_map.
  simpl repeat. f_equal. apply (IH (first + 1)).
Qed.

(** The loop always comes to an end: from a counter [c], the turns left
    before the counter reaches twenty are all the fuel it needs. *)
Lemma retryLoop_total fetch :
  forall (n fuel : nat) (c : Z),
    (n < fuel)%nat -> numberOfRequestRetries <= c + 1 + Z.of_nat n ->
    exists out, retryLoop fetch fuel c = Some out.
Proof.
  induction n as [| n IH]; intros fuel c Hfuel Hn;
    (destruct fuel as [| fuel]; [lia |]).
  - (* the counter reaches twenty in this turn: it is the last *)
    rewrite retryLoop_unfold; cbv zeta.
    assert (Hltb : (c + 1 <? numberOfRequestRetries) = false)
      by (apply Z.ltb_ge; lia).
    assert (Hgeb : (c + 1 >=? numberOfRequestRetries) = true)
      by (rewrite Z.geb_leb; apply Z.leb_le; lia).
    rewrite Hltb, Hgeb. simpl andb.
    destruct (fetch (c + 1)) as [response | e]; [| eauto].
    destruct (status response >=? 500); eauto.
  - (* either this turn ends the loop, or the next one starts with less to go *)
    destruct (IH fuel (c + 1)) as [[r log] Hnext]; [lia | lia |].
    rewrite retryLoop_unfold; cbv zeta. rewrite Hnext.
    destruct (fetch (c + 1)) as [response | e].
    + destruct (status response >=? 500); [| eauto].
      destruct (c + 1 >=? numberOfRequestRetries); [| eauto].
      destruct (c + 1 <? numberOfRequestRetries); simpl; eauto.
    + destruct ((c + 1 <? numberOfRequestRetries) && isTransient e); eauto.
Qed.

Lemma sendRawRequest_total fetch (fuel : nat) :
  (20 <= fuel)%nat -> exists out, sendRawRequest fetch fuel = Some out.
Proof.
  intros Hfuel. unfold sendRawRequest.
  apply (retryLoop_total fetch 19); unfold numberOfRequestRetries; lia.
Qed.

(** Whatever the fuel, a response the loop returns is below 500. *)
Lemma retryLoop_returns_below_500 fetch :
  forall (fuel : nat) (c : Z) response log,
    retryLoop fetch fuel c = Some (Ok response, log) -> status response < 500.
Proof.
  induction fuel as [| fuel IH]; intros c response log Hrun; [discriminate |].
  rewrite retryLoop_unfold in Hrun. cbv zeta in Hrun.
  assert (Hcont : forall r l,
             match retryLoop fetch fuel (c + 1) with
             | Some (r0, log0) => Some (r0, Fetch (c + 1) :: Sleep sleepTimeout :: log0)
             | None => None
             end = Some (Ok r, l) -> status r < 500).
  { intros r l H.
    destruct (retryLoop fetch fuel (c + 1)) as [[r0 log0] |] eqn:Hrec; [| discriminate].
    inversion H; subst. eapply IH; eassumption. }
  destruct (fetch (c + 1)) as [resp | e].
  - destruct (status resp >=? 500) eqn:Hst.
    + destruct (c + 1 >=? numberOfRequestRetries).
      * simpl isTransient in Hrun. rewrite andb_false_r in Hrun. discriminate.
      * eapply Hcont; eassumption.
    + inversion Hrun; subst. rewrite Z.geb_leb in Hst. apply Z.leb_gt in Hst. lia.
  - destruct ((c + 1 <? numberOfRequestRetries) && isTransient e).
    + eapply Hcont; eassumption.
    + discriminate.
Qed.

(** C6.  If every one of the twenty attempts raises a FetchError of type
    'system' or 'request-timeout' or returns a status of 500 or more,
    [sendRawRequest] throws, and only after exactly twenty attempts with a
    sleep of 10000 ms between two consecutive ones; when the last attempt
    returned a status of 500 or more, the error carries that status and
    the number 20; when it raised a network error, that error is thrown. *)
Theorem retries_exhausted_after_twenty_attempts fetch (fuel : nat) :
  (20 <= fuel)%nat ->
  (forall i, 1 <= i <= 20 ->
             fetch i = Throw (FetchError "system") \/
             fetch i = Throw (FetchError "request-timeout") \/
             exists response, fetch i = Ok response /\ 500 <= status response) ->
  exists e log,
    sendRawRequest fetch fuel = Some (Throw e, log) /\
    log = backoffLog 1 20 /\
    attempts log = 20%nat /\
    sleeps log = repeat 10000 19 /\
    (forall response, fetch 20 = Ok response ->
                      e = UnexpectedStatusAfterRetries (status response) 20) /\
    (forall err, fetch 20 = Throw err -> e = err).
Proof.
  intros Hfuel Hall.
  assert (Hretry : forall i, 1 <= i <= 20 -> retryable (fetch i) = true).
  { intros i Hi.
    destruct (Hall i Hi) as [H | [H | [response [H Hstatus]]]]; rewrite H.
    - reflexivity.
    - reflexivity.
    - simpl. rewrite Z.geb_leb. apply Z.leb_le. assumption. }
  exists (exhaustedError (fetch 20)), (backoffLog 1 20).
  split; [| split; [| split; [| split; [| split]]]].
  - unfold sendRawRequest.
    apply (retryLoop_exhausts fetch 19 fuel 0); unfold numberOfRequestRetries;
      try lia. intros i Hi. apply Hretry. lia.
  - reflexivity.
  - apply attempts_backoffLog.
  - apply (sleeps_backoffLog 19).
  - intros response Hlast. rewrite Hlast. reflexivity.
  - intros err Hlast. rewrite Hlast. reflexivity.
Qed.

(** A network that fails in turn with a request timeout, a 503 and a
    system error (DNS): attempt 20 is a 503. *)
Lemma retries_exhausted_witness :
  let fetch := fun i =>
    if i mod 3 =? 0 then Throw (FetchError "system")
    else if i mod 3 =? 1 then Throw (FetchError "request-timeout")
    else Ok (mkResponse 503 (Ok JNull)) in
  fetch 1 = Throw (FetchError "request-timeout") /\
  fetch 3 = Throw (FetchError "system") /\
  exists e log,
    sendRawRequest fetch 20 = Some (Throw e, log) /\
    log = backoffLog 1 20 /\
    attempts log = 20%nat /\
    sleeps log = repeat 10000 19 /\
    (forall response, fetch 20 = Ok response ->
                      e = UnexpectedStatusAfterRetries (status response) 20) /\
    (forall err, fetch 20 = Throw err -> e = err).
Proof.
  intros fetch. split; [reflexivity |]. split; [reflexivity |].
  apply (retries_exhausted_after_twenty_attempts fetch 20).
  - lia.
  - intros i _. unfold fetch.
    destruct (i mod 3 =? 0); [left; reflexivity |].
    destruct (i mod 3 =? 1); [right; left; reflexivity |].
    right. right. exists (mkResponse 503 (Ok JNull)). split; [reflexivity |].
    simpl. lia.
Defined.

(** Twenty request timeouts in a row: the twentieth is thrown. *)
Lemma twenty_timeouts :
  sendRawRequest (fun _ : Z => Throw (FetchError "request-timeout")) 20
    = Some (Throw (FetchError "request-timeout"), backoffLog 1 20).
Proof. reflexivity. Qed.

(** C7.  If the first N attempts (N < 20) are retried (each returns a
    status of 500 or more, or raises a transient network error) and
    attempt N+1 returns a response whose status is below 500 (so any
    status in [200,300), and any 4xx), [sendRawRequest] returns that very
    response after N+1 attempts, that is after exactly N retries; with
    N = 0 it is returned without any retry. *)
Theorem response_below_500_returned_after_N_retries
  fetch (fuel N : nat) response :
  (20 <= fuel)%nat ->
  (N < 20)%nat ->
  (forall i, 1 <= i <= Z.of_nat N -> retryable (fetch i) = true) ->
  fetch (Z.of_nat N + 1) = Ok response ->
  status response < 500 ->
  exists log,
    sendRawRequest fetch fuel = Some (Ok response, log) /\
    log = backoffLog 1 (S N) /\
    attempts log = S N /\
    sleeps log = repeat 10000 N.
Proof.
  intros Hfuel HN Hfirst Hfetch Hstatus.
  exists (backoffLog 1 (S N)). split; [| split; [| split]].
  - unfold sendRawRequest.
    apply (retryLoop_succeeds fetch response N fuel 0); unfold numberOfRequestRetries;
      try lia; try assumption.
    intros i Hi. apply Hfirst. lia.
  - reflexivity.
  - apply attempts_backoffLog.
  - apply (sleeps_backoffLog N).
Qed.

(** Two 503 answers, then a 200. *)
Lemma response_returned_witness :
  let fetch := fun i => if i <=? 2 then Ok (mkResponse 503 (Ok JNull))
                        else Ok (mkResponse 200 (Ok (JObject []))) in
  exists log,
    sendRawRequest fetch 20 = Some (Ok (mkResponse 200 (Ok (JObject []))), log) /\
    log = [Fetch 1; Sleep 10000; Fetch 2; Sleep 10000; Fetch 3] /\
    attempts log = 3%nat /\
    sleeps log = repeat 10000 2.
Proof.
  intros fetch.
  apply (response_below_500_returned_after_N_retries fetch 20 2).
  - lia.
  - lia.
  - intros i Hi. unfold fetch.
    destruct (Z.leb_spec i 2); [reflexivity | lia].
  - reflexivity.
  - simpl; lia.
Defined.

(** C8.  The outcome of [validateResponseStatus] is a function of the
    status code alone: 401 throws 'Unauthorized', 403 throws 'Forbidden',
    every status in [200,300) passes, every other status throws
    'Unexpected status code' with that status; two responses with the same
    status are classified alike. *)
Theorem validateResponseStatus_classifies :
  (forall r, status r = 401 -> validateResponseStatus r = Throw Unauthorized) /\
  (forall r, status r = 403 -> validateResponseStatus r = Throw Forbidden) /\
  (forall r, 200 <= status r < 300 -> validateResponseStatus r = Ok tt) /\
  (forall r, status r <> 401 -> status r <> 403 -> ~ 200 <= status r < 300 ->
             validateResponseStatus r = Throw (UnexpectedStatus (status r))) /\
  (forall r1 r2, status r1 = status r2 ->
                 validateResponseStatus r1 = validateResponseStatus r2).
Proof.
  unfold validateResponseStatus.
  split; [| split; [| split; [| split]]].
  - intros r H. rewrite H. reflexivity.
  - intros r H. rewrite H. reflexivity.
  - intros r H.
    destruct (Z.eqb_spec (status r) 401); [lia |].
    destruct (Z.eqb_spec (status r) 403); [lia |].
    rewrite Z.geb_leb.
    destruct (Z.ltb_spec (status r) 200); [lia |].
    destruct (Z.leb_spec 300 (status r)); [lia |]. reflexivity.
  - intros r H1 H2 H3.
    destruct (Z.eqb_spec (status r) 401); [contradiction |].
    destruct (Z.eqb_spec (status r) 403); [contradiction |].
    rewrite Z.geb_leb.
    destruct (Z.ltb_spec (status r) 200); [reflexivity |].
    destruct (Z.leb_spec 300 (status r)); [reflexivity | lia].
  - intros r1 r2 H. rewrite H. reflexivity.
Qed.

(** C9, at the input where the code departs from it: a body that decodes
    to [null] passes the check of [sendRequestWithSingleResponse]
    ([typeof null] is 'object') and is returned, and so is an array. *)
Theorem single_response_accepts_null_and_arrays :
  sendRequestWithSingleResponse (fun _ => Ok (mkResponse 200 (Ok JNull))) 20
    = Some (Ok JNull, [Fetch 1]) /\
  sendRequestWithSingleResponse (fun _ => Ok (mkResponse 200 (Ok (JArray [])))) 20
    = Some (Ok (JArray []), [Fetch 1]).
Proof. split; reflexivity. Qed.

(** What the two helpers do check.  The single-object helper rejects the
    bodies whose [typeof] is not 'object': booleans, numbers and strings. *)
Lemma singleResponse_rejects_primitives response data :
  validateResponseStatus response = Ok tt ->
  json response = Ok data ->
  typeof data <> "object" ->
  singleResponse (Ok response) = Throw InvalidResponse.
Proof.
  intros Hvalid Hjson Htype. unfold singleResponse. simpl.
  rewrite Hvalid, Hjson. simpl.
  destruct data; simpl in *; try reflexivity; contradiction.
Qed.

(** The collection helper rejects every body that is not an array. *)
Lemma multiResponse_rejects_non_arrays response data :
  validateResponseStatus response = Ok tt ->
  json response = Ok data ->
  isArray data = false ->
  multiResponse (Ok response) = Throw InvalidResponse.
Proof.
  intros Hvalid Hjson Harr. unfold multiResponse. simpl.
  rewrite Hvalid, Hjson. simpl. rewrite Harr. reflexivity.
Qed.

(** Both helpers validate the status before they look at the body. *)
Lemma status_error_comes_first response e :
  validateResponseStatus response = Throw e ->
  singleResponse (Ok response) = Throw e /\ multiResponse (Ok response) = Throw e.
Proof.
  intros Hvalid. unfold singleResponse, multiResponse. simpl.
  rewrite Hvalid. split; reflexivity.
Qed.

(** C10.  [sendRawRequest] comes to an end, and a response it returns
    has a status below 500: the status validator downstream never throws
    for a status of 500 or more. *)
Theorem sendRawRequest_never_returns_5xx fetch (fuel : nat) :
  (20 <= fuel)%nat ->
  (exists out, sendRawRequest fetch fuel = Some out) /\
  (forall response log,
      sendRawRequest fetch fuel = Some (Ok response, log) ->
      status response < 500 /\
      (forall s, validateResponseStatus response = Throw (UnexpectedStatus s) ->
                 s < 500)).
Proof.
  intros Hfuel. split.
  - apply sendRawRequest_total. assumption.
  - intros response log Hrun.
    assert (Hlt : status response < 500)
      by (eapply retryLoop_returns_below_500; exact Hrun).
    split; [assumption |].
    intros s Hthrow. unfold validateResponseStatus in Hthrow.
    destruct (status response =? 401); [discriminate |].
    destruct (status response =? 403); [discriminate |].
    destruct ((status response <? 200) || (status response >=? 300));
      [| discriminate].
    inversion Hthrow; subst. assumption.
Qed.

(** A server that answers 502 nineteen times and then 404. *)
Lemma never_returns_5xx_witness :
  let fetch := fun i => if i <=? 19 then Ok (mkResponse 502 (Ok JNull))
                        else Ok (mkResponse 404 (Ok JNull)) in
  (20 <= 20)%nat /\
  sendRawRequest fetch 20
    = Some (Ok (mkResponse 404 (Ok JNull)), backoffLog 1 20) /\
  status (mkResponse 404 (Ok JNull)) < 500.
Proof.
  intros fetch. split; [lia |].
  assert (Hrun : sendRawRequest fetch 20
                 = Some (Ok (mkResponse 404 (Ok JNull)), backoffLog 1 20))
    by reflexivity.
  split; [exact Hrun |].
  exact (proj1 (proj2 (sendRawRequest_never_returns_5xx fetch 20 (le_n 20))
                  _ _ Hrun)).
Defined.

End GitlabApiSpec.

(* ================================================================== *)
(** * Properties of the queue *)
(* ================================================================== *)

Module QueueSpec.
Import Queue.

Section Facts.

Context {Job : Type} (shadows : Job -> string -> bool).
Implicit Types (o : list (string * Job)) (q : Queue Job) (key : string).

(** ** The mapping *)

Lemma lookup_overwrite_same o key job :
  hasOwn o key = true -> lookup (overwrite o key job) key = Some job.
Proof.
  unfold hasOwn. induction o as [| [k j] rest IH]; simpl; [discriminate |].
  destruct (String.eqb_spec k key) as [-> | Hne]; simpl.
  - intros _. rewrite String.eqb_refl. reflexivity.
  - intros H. destruct (String.eqb_spec k key); [contradiction | auto].
Qed.

Lemma lookup_overwrite_other o key job key' :
  key' <> key -> lookup (overwrite o key job) key' = lookup o key'.
Proof.
  intros Hne. induction o as [| [k j] rest IH]; simpl; [reflexivity |].
  destruct (String.eqb_spec k key) as [-> | Hk]; simpl.
  - destruct (String.eqb_spec key key'); [congruence | reflexivity].
  - rewrite IH. reflexivity.
Qed.

Lemma lookup_create_same o key job :
  lookup o key = None -> lookup (create o key job) key = Some job.
Proof.
  induction o as [| [k j] rest IH]; simpl.
  - intros _. rewrite String.eqb_refl. reflexivity.
  - destruct (String.eqb_spec k key) as [-> | Hk]; [discriminate |].
    intros Hnone. destruct (listedBefore key k); simpl.
    + rewrite String.eqb_refl. reflexivity.
    + destruct (String.eqb_spec k key); [contradiction | auto].
Qed.

Lemma lookup_create_other o key job key' :
  key' <> key -> lookup (create o key job) key' = lookup o key'.
Proof.
  intros Hne. induction o as [| [k j] rest IH]; simpl.
  - destruct (String.eqb_spec key key'); [congruence | reflexivity].
  - destruct (listedBefore key k); simpl.
    + destruct (String.eqb_spec key key'); [congruence | reflexivity].
    + rewrite IH. reflexivity.
Qed.

Lemma lookup_assign_same o key job : lookup (assign o key job) key = Some job.
Proof.
  unfold assign. destruct (hasOwn o key) eqn:Hown.
  - apply lookup_overwrite_same. assumption.
  - apply lookup_create_same. unfold hasOwn in Hown.
    destruct (lookup o key); [discriminate | reflexivity].
Qed.

Lemma lookup_assign_other o key job key' :
  key' <> key -> lookup (assign o key job) key' = lookup o key'.
Proof.
  intros Hne. unfold assign. destruct (hasOwn o key).
  - apply lookup_overwrite_other. assumption.
  - apply lookup_create_other. assumption.
Qed.

Lemma lookup_delete_same o key : lookup (deleteProperty o key) key = None.
Proof.
  induction o as [| [k j] rest IH]; simpl; [reflexivity |].
  destruct (String.eqb_spec k key) as [-> | Hk]; simpl; [assumption |].
  destruct (String.eqb_spec k key); [contradiction | assumption].
Qed.

Lemma lookup_delete_other o key key' :
  key' <> key -> lookup (deleteProperty o key) key' = lookup o key'.
Proof.
  intros Hne. induction o as [| [k j] rest IH]; simpl; [reflexivity |].
  destruct (String.eqb_spec k key) as [-> | Hk]; simpl.
  - destruct (String.eqb_spec key key'); [congruence | assumption].
  - rewrite IH. reflexivity.
Qed.

Lemma hasOwn_In o key : hasOwn o key = true <-> In key (keys o).
Proof.
  unfold hasOwn. induction o as [| [k j] rest IH]; simpl.
  - split; [discriminate | contradiction].
  - destruct (String.eqb_spec k key) as [-> | Hk].
    + split; auto.
    + rewrite IH. split; [auto | intros [H | H]; [contradiction | assumption]].
Qed.

Lemma keys_overwrite o key job : keys (overwrite o key job) = keys o.
Proof.
  induction o as [| [k j] rest IH]; simpl; [reflexivity |].
  destruct (k =? key)%string; simpl; [reflexivity | rewrite IH; reflexivity].
Qed.

Lemma In_keys_create o key job x :
  In x (keys (create o key job)) <-> x = key \/ In x (keys o).
Proof.
  induction o as [| [k j] rest IH]; simpl.
  - intuition.
  - destruct (listedBefore key k); simpl.
    + intuition.
    + rewrite IH. intuition.
Qed.

Lemma NoDup_keys_create o key job :
  ~ In key (keys o) -> NoDup (keys o) -> NoDup (keys (create o key job)).
Proof.
  induction o as [| [k j] rest IH]; simpl; intros Hnot Hnd.
  - constructor; [intros [] | constructor].
  - destruct (listedBefore key k); simpl.
    + constructor; [exact Hnot | exact Hnd].
    + inversion Hnd as [| ? ? Hk Hrest]; subst. constructor.
      * rewrite In_keys_create. intros [-> | H]; [apply Hnot; auto | contradiction].
      * apply IH; [intros H; apply Hnot; auto | assumption].
Qed.

Lemma NoDup_keys_assign o key job :
  NoDup (keys o) -> NoDup (keys (assign o key job)).
Proof.
  intros Hnd. unfold assign. destruct (hasOwn o key) eqn:Hown.
  - rewrite keys_overwrite. assumption.
  - apply NoDup_keys_create; [| assumption].
    rewrite <- hasOwn_In, Hown. discriminate.
Qed.

Lemma NoDup_keys_delete o key :
  NoDup (keys o) -> NoDup (keys (deleteProperty o key)).
Proof.
  induction o as [| [k j] rest IH]; simpl; intros Hnd; [constructor |].
  inversion Hnd as [| ? ? Hk Hrest]; subst.
  destruct (k =? key)%string; simpl; [auto |].
  constructor; [| auto].
  intros Hin. apply Hk. unfold keys, deleteProperty in Hin.
  apply in_map_iff in Hin. destruct Hin as [[k' j'] [Heq Hin]].
  apply filter_In in Hin. simpl in Heq. subst.
  apply in_map_iff. exists (k, j'). split; [reflexivity | tauto].
Qed.

(** Deleting the key of the first entry leaves the other entries. *)
Lemma delete_head o key job :
  NoDup (keys ((key, job) :: o)) -> deleteProperty ((key, job) :: o) key = o.
Proof.
  intros Hnd. inversion Hnd as [| ? ? Hk Hrest]; subst.
  unfold deleteProperty. simpl. rewrite String.eqb_refl. simpl.
  clear Hnd Hrest. induction o as [| [k j] rest IH]; simpl; [reflexivity |].
  destruct (String.eqb_spec k key) as [-> | Hne]; simpl.
  - exfalso. apply Hk. simpl. auto.
  - f_equal. apply IH. intros H. apply Hk. simpl. auto.
Qed.

Lemma assign_not_empty o key job : assign o key job <> [].
Proof.
  intros H. pose proof (lookup_assign_same o key job) as Hl.
  rewrite H in Hl. discriminate.
Qed.

Lemma overwrite_overwrite o key job1 job2 :
  overwrite (overwrite o key job1) key job2 = overwrite o key job2.
Proof.
  induction o as [| [k j] rest IH]; simpl; [reflexivity |].
  destruct (String.eqb_spec k key) as [-> | Hne]; simpl.
  - rewrite String.eqb_refl. reflexivity.
  - destruct (String.eqb_spec k key); [contradiction |]. rewrite IH. reflexivity.
Qed.

Lemma overwrite_create o key job1 job2 :
  lookup o key = None ->
  overwrite (create o key job1) key job2 = create o key job2.
Proof.
  induction o as [| [k j] rest IH]; simpl.
  - intros _. rewrite String.eqb_refl. reflexivity.
  - destruct (String.eqb_spec k key) as [-> | Hne]; [discriminate |].
    intros Hnone. destruct (listedBefore key k); simpl.
    + rewrite String.eqb_refl. reflexivity.
    + destruct (String.eqb_spec k key); [contradiction |]. rewrite IH by assumption.
      reflexivity.
Qed.

(** Two assignments under one key leave what the second alone leaves. *)
Lemma assign_assign o key job1 job2 :
  assign (assign o key job1) key job2 = assign o key job2.
Proof.
  assert (Hown : hasOwn (assign o key job1) key = true)
    by (unfold hasOwn; rewrite lookup_assign_same; reflexivity).
  unfold assign at 1. rewrite Hown. unfold assign.
  destruct (hasOwn o key) eqn:Ho.
  - apply overwrite_overwrite.
  - apply overwrite_create. unfold hasOwn in Ho.
    destruct (lookup o key); [discriminate | reflexivity].
Qed.

(** A name that is not an array index is listed after all the others. *)
Lemma create_at_end o key job :
  arrayIndex key = None -> create o key job = o ++ [(key, job)].
Proof.
  intros Hnone. induction o as [| [k j] rest IH]; simpl; [reflexivity |].
  unfold listedBefore. rewrite Hnone. rewrite IH. reflexivity.
Qed.

(** ** Runs *)

Lemma run_app events1 :
  forall q events2,
    run shadows q (events1 ++ events2) =
    match run shadows q events1 with
    | Some (q1, out1) =>
      match run shadows q1 events2 with
      | Some (q2, out2) => Some (q2, out1 ++ out2)
      | None => None
      end
    | None => None
    end.
Proof.
  induction events1 as [| e rest IH]; simpl; intros q events2.
  - destruct (run shadows q events2) as [[q2 out2] |]; reflexivity.
  - destruct (step shadows q e) as [[q1 out1] |]; [| reflexivity].
    rewrite IH. destruct (run shadows q1 rest) as [[q2 out2] |]; [| reflexivity].
    destruct (run shadows q2 events2) as [[q3 out3] |]; [| reflexivity].
    rewrite app_assoc. reflexivity.
Qed.

Lemma loopTurn_jobs rejected executor q :
  jobs (fst (loopTurn rejected executor q)) = jobs q.
Proof.
  unfold loopTurn. destruct (jobs q) as [| [k j] rest] eqn:Hjobs; simpl; auto.
Qed.

(** The keys of the mapping are distinct, whatever happens. *)
Lemma NoDup_step q e q' out :
  NoDup (keys (jobs q)) -> step shadows q e = Some (q', out) ->
  NoDup (keys (jobs q')).
Proof.
  intros Hnd Hstep. destruct e as [jobId job | | i ok |]; simpl in Hstep.
  - inversion Hstep as [Happend]; clear Hstep.
    unfold appendJob in Happend.
    destruct (assignJob shadows (prototype q) (jobs q) jobId job) as [o | |] eqn:Hassign.
    + assert (Ho : NoDup (keys o)).
      { unfold assignJob in Hassign.
        destruct (jobId =? "__proto__")%string; [discriminate |].
        destruct (negb (hasOwn (jobs q) jobId) &&
                  match prototype q with Some p => shadows p jobId | None => false end);
          [discriminate |].
        inversion Hassign; subst. apply NoDup_keys_assign. assumption. }
      cbn [promise] in Happend. destruct (promise q).
      * inversion Happend; subst. exact Ho.
      * pose proof (loopTurn_jobs false true
                      {| promise := false; jobs := o; prototype := prototype q;
                         loops := loops q; calls := calls q;
                         reactions := reactions q |}) as Hjobs.
        rewrite Happend in Hjobs. simpl in Hjobs. rewrite Hjobs. exact Ho.
    + cbn [promise] in Happend. destruct (promise q).
      * inversion Happend; subst. exact Hnd.
      * pose proof (loopTurn_jobs false true
                      {| promise := false; jobs := jobs q; prototype := Some job;
                         loops := loops q; calls := calls q;
                         reactions := reactions q |}) as Hjobs.
        rewrite Happend in Hjobs. simpl in Hjobs. rewrite Hjobs. exact Hnd.
    + inversion Happend; subst. exact Hnd.
  - unfold returned in Hstep. destruct (calls q); [discriminate |].
    inversion Hstep; subst. exact Hnd.
  - unfold resume in Hstep.
    destruct (calls q); [| discriminate].
    destruct (nth_error (loops q) i) as [l |]; [| discriminate].
    inversion Hstep as [Hturn]; clear Hstep.
    match type of Hturn with
    | loopTurn ?r ?x ?q0 = _ => pose proof (loopTurn_jobs r x q0) as Hjobs
    end.
    rewrite Hturn in Hjobs. simpl in Hjobs. rewrite Hjobs.
    apply NoDup_keys_delete. assumption.
  - unfold react in Hstep.
    destruct (calls q); [| discriminate].
    destruct (reactions q); [discriminate |].
    inversion Hstep; subst. exact Hnd.
Qed.

Lemma NoDup_run events :
  forall q q' out,
    NoDup (keys (jobs q)) -> run shadows q events = Some (q', out) ->
    NoDup (keys (jobs q')).
Proof.
  induction events as [| e rest IH]; simpl; intros q q' out Hnd Hrun.
  - inversion Hrun; subst. assumption.
  - destruct (step shadows q e) as [[q1 out1] |] eqn:Hstep; [| discriminate].
    destruct (run shadows q1 rest) as [[q2 out2] |] eqn:Hrest; [| discriminate].
    inversion Hrun; subst.
    eapply IH; [eapply NoDup_step; eassumption | eassumption].
Qed.

Lemma reachable_NoDup q : reachable shadows q -> NoDup (keys (jobs q)).
Proof.
  intros [events [out Hrun]].
  eapply NoDup_run; [| eassumption]. constructor.
Qed.

(** ** Appending while the promise is assigned *)

(** With [this.promise] assigned, [appendJob] under a key that the
    assignment stores only stores the job. *)
Lemma append_stores q key job :
  promise q = true ->
  stores shadows q key = true ->
  step shadows q (AppendJob key job)
    = Some ({| promise := true; jobs := assign (jobs q) key job;
               prototype := prototype q; loops := loops q; calls := calls q;
               reactions := reactions q |}, []).
Proof.
  intros Hp Hstores. simpl. unfold appendJob, assignJob.
  unfold stores in Hstores. apply andb_true_iff in Hstores.
  destruct Hstores as [Hproto Hroom]. apply negb_true_iff in Hproto.
  rewrite Hproto.
  assert (Hgo : negb (hasOwn (jobs q) key) &&
                match prototype q with Some p => shadows p key | None => false end
                = false).
  { destruct (hasOwn (jobs q) key); [reflexivity |]. simpl in *.
    destruct (prototype q) as [p |]; [| reflexivity].
    apply negb_true_iff. assumption. }
  rewrite Hgo. cbn [promise]. rewrite Hp. reflexivity.
Qed.

(** ** Draining with a single loop and no further appends *)

Lemma settleAll_cons ok ok1 (oks : list bool) :
  settleAll (Job := Job) (ok :: ok1 :: oks)
    = Settled 0 ok :: Returned :: settleAll (ok1 :: oks).
Proof. reflexivity. Qed.

(** From a queue whose only loop is suspended on the job under its key,
    once that job and then every job started after it have settled, the
    entries that were waiting have been run in listing order and the
    mapping is empty; the [onEmptyQueue] reaction has been queued exactly
    when [reject] was never called. *)
Lemma drain_in_listing_order :
  forall (pending : list (string * Job)) q l ok oks,
    NoDup (keys (jobs q)) ->
    loops q = [l] ->
    calls q = [] ->
    deleteProperty (jobs q) (loopKey l) = pending ->
    List.length oks = List.length pending ->
    run shadows q (settleAll (ok :: oks)) =
    Some ({| promise := false; jobs := []; prototype := prototype q;
             loops := []; calls := [];
             reactions := if loopRejected l || negb (allOk (ok :: oks))
                          then reactions q else S (reactions q) |},
          starts pending).
Proof.
  induction pending as [| [k0 j0] rest IH]; intros q l ok oks Hnd Hl Hc Hdel Hlen.
  - destruct oks; [| discriminate]. cbn [settleAll flat_map run step].
    unfold resume. rewrite Hc, Hl. cbn [nth_error]. unfold loopTurn.
    cbn [jobs]. rewrite Hdel. cbn.
    destruct ok, (loopRejected l); reflexivity.
  - destruct oks as [| ok1 oks]; [discriminate |].
    pose proof (NoDup_keys_delete (jobs q) (loopKey l) Hnd) as Hnd'.
    rewrite Hdel in Hnd'.
    rewrite settleAll_cons. cbn [run step].
    unfold resume. rewrite Hc, Hl. cbn [nth_error]. unfold loopTurn.
    cbn [jobs]. rewrite Hdel. cbn [promise prototype loops calls reactions].
    unfold returned. cbn [calls].
    cbn [promise jobs prototype loops reactions inExecutor callKey callRejected
         removeNth firstn skipn app].
    rewrite (IH _ (mkLoop k0 (if ok then loopRejected l else true)) ok1 oks);
      cbn [jobs loops calls prototype reactions loopKey loopRejected].
    + simpl app. f_equal. f_equal. f_equal.
      destruct ok, (loopRejected l), (allOk (ok1 :: oks)) eqn:E;
        unfold allOk in *; simpl in *; rewrite ?E; reflexivity.
    + assumption.
    + reflexivity.
    + reflexivity.
    + apply delete_head. assumption.
    + simpl in Hlen. lia.
Qed.

(** ** What a single loop owes to a key *)

(** A key that is not in the mapping stays out of it, and nothing is
    executed under it, as long as nothing is appended under it. *)
Lemma absent_key_step key q e q' out :
  lookup (jobs q) key = None ->
  isAppendOf key e = false ->
  step shadows q e = Some (q', out) ->
  lookup (jobs q') key = None /\ startedFor key out = [].
Proof.
  intros Habsent Hother Hstep.
  assert (Hturn : forall rejected executor q0,
             lookup (jobs q0) key = None ->
             lookup (jobs (fst (loopTurn rejected executor q0))) key = None /\
             startedFor key (snd (loopTurn rejected executor q0)) = []).
  { intros rejected executor q0 Hq0. unfold loopTurn.
    destruct (jobs q0) as [| [k0 j0] tl] eqn:Hjobs; simpl; [auto |].
    split; [assumption |].
    simpl in Hq0. destruct (String.eqb_spec k0 key); [discriminate | reflexivity]. }
  destruct e as [jobId job | | i ok |]; simpl in Hother, Hstep.
  - apply String.eqb_neq in Hother.
    inversion Hstep as [Happend]; clear Hstep. unfold appendJob in Happend.
    destruct (assignJob shadows (prototype q) (jobs q) jobId job) as [o | |] eqn:Hassign.
    + assert (Ho : lookup o key = None).
      { unfold assignJob in Hassign.
        destruct (jobId =? "__proto__")%string; [discriminate |].
        destruct (negb (hasOwn (jobs q) jobId) &&
                  match prototype q with Some p => shadows p jobId | None => false end);
          [discriminate |].
        inversion Hassign; subst.
        rewrite lookup_assign_other by congruence. assumption. }
      cbn [promise] in Happend. destruct (promise q).
      * inversion Happend; subst. auto.
      * match type of Happend with
        | loopTurn ?r ?x ?q0 = _ => destruct (Hturn r x q0 Ho) as [H1 H2]
        end.
        rewrite Happend in H1, H2. auto.
    + cbn [promise] in Happend. destruct (promise q).
      * inversion Happend; subst. auto.
      * match type of Happend with
        | loopTurn ?r ?x ?q0 = _ => destruct (Hturn r x q0 Habsent) as [H1 H2]
        end.
        rewrite Happend in H1, H2. auto.
    + inversion Happend; subst. auto.
  - unfold returned in Hstep. destruct (calls q); [discriminate |].
    inversion Hstep; subst. auto.
  - unfold resume in Hstep.
    destruct (calls q); [| discriminate].
    destruct (nth_error (loops q) i) as [l |]; [| discriminate].
    inversion Hstep as [Hturn']; clear Hstep.
    assert (Hdel : lookup (deleteProperty (jobs q) (loopKey l)) key = None).
    { destruct (String.eqb_spec key (loopKey l)) as [-> | Hne].
      - apply lookup_delete_same.
      - rewrite lookup_delete_other by assumption. assumption. }
    match type of Hturn' with
    | loopTurn ?r ?x ?q0 = _ => destruct (Hturn r x q0 Hdel) as [H1 H2]
    end.
    rewrite Hturn' in H1, H2. auto.
  - unfold react in Hstep.
    destruct (calls q); [| discriminate].
    destruct (reactions q); [discriminate |].
    inversion Hstep; subst. auto.
Qed.

Lemma owed_absent key q : lookup (jobs q) key = None -> owed key q = [].
Proof. intros H. unfold owed. rewrite H. reflexivity. Qed.

(** With a single loop and [this.promise] assigned, as long as nothing is
    appended under [key]: an execution under [key] is always the one the
    queue owed to it, and it is owed no more afterwards; and the loop
    stays the only one as long as [key] is in the mapping. *)
Lemma owed_step key q e q' out :
  lookup (jobs q) key = None \/ (promise q = true /\ soleLoop q <> None) ->
  isAppendOf key e = false ->
  step shadows q e = Some (q', out) ->
  (lookup (jobs q') key = None \/ (promise q' = true /\ soleLoop q' <> None)) /\
  startedFor key out ++ owed key q' = owed key q.
Proof.
  intros Hinv Hother Hstep.
  destruct (lookup (jobs q) key) as [j |] eqn:Hstored.
  2: { destruct (absent_key_step key q e q' out Hstored Hother Hstep) as [H1 H2].
       split; [left; assumption |].
       rewrite H2, (owed_absent key q'), (owed_absent key q); auto. }
  destruct Hinv as [H | [Hp Hsole]]; [discriminate |].
  destruct e as [jobId job | | i ok |]; simpl in Hother, Hstep.
  - (* appendJob under another key only stores *)
    apply String.eqb_neq in Hother.
    inversion Hstep as [Happend]; clear Hstep. unfold appendJob in Happend.
    destruct (assignJob shadows (prototype q) (jobs q) jobId job) as [o | |] eqn:Hassign;
      cbn [promise] in Happend; rewrite ?Hp in Happend;
      inversion Happend; subst; clear Happend.
    + assert (Ho : lookup o key = Some j).
      { unfold assignJob in Hassign.
        destruct (jobId =? "__proto__")%string; [discriminate |].
        destruct (negb (hasOwn (jobs q) jobId) &&
                  match prototype q with Some p => shadows p jobId | None => false end);
          [discriminate |].
        inversion Hassign; subst.
        rewrite lookup_assign_other by congruence. assumption. }
      split; [right; split; [reflexivity | exact Hsole] |].
      unfold owed, holdsKey, soleKey, soleLoop. cbn [jobs loops calls].
      rewrite Ho, Hstored. reflexivity.
    + split; [right; split; [reflexivity | exact Hsole] |].
      unfold owed, holdsKey, soleKey, soleLoop. cbn [jobs loops calls].
      reflexivity.
    + split; [right; split; assumption |]. reflexivity.
  - (* the body called by the loop returns *)
    unfold returned in Hstep. unfold soleLoop in Hsole.
    destruct (loops q) as [| l [| l' ls]] eqn:Hl;
      destruct (calls q) as [| c [| c' cs]] eqn:Hc;
      try discriminate; try (exfalso; apply Hsole; reflexivity).
    inversion Hstep; subst; clear Hstep.
    split.
    + right. split; [destruct (inExecutor c); auto |].
      unfold soleLoop. cbn [loops calls app]. discriminate.
    + unfold owed, holdsKey, soleKey, soleLoop. cbn [jobs loops calls app].
      rewrite Hl, Hc. reflexivity.
  - (* the job settles and the loop takes its next turn *)
    unfold resume in Hstep. unfold soleLoop in Hsole.
    destruct (calls q) as [| c cs] eqn:Hc; [| discriminate].
    destruct (loops q) as [| l [| l' ls]] eqn:Hl;
      try (exfalso; apply Hsole; reflexivity).
    destruct i as [| i]; [| destruct i; discriminate].
    cbn [nth_error] in Hstep. unfold loopTurn in Hstep.
    cbn [jobs promise prototype loops calls reactions removeNth firstn skipn app]
      in Hstep.
    pose proof (lookup_delete_same (jobs q) (loopKey l)) as Hsame.
    pose proof (fun k => lookup_delete_other (jobs q) (loopKey l) k) as Hrest.
    assert (Howed : owed key q
                    = if (loopKey l =? key)%string then [] else [Started key j]).
    { unfold owed, holdsKey, soleKey, soleLoop. rewrite Hstored, Hl, Hc.
      reflexivity. }
    rewrite Howed.
    destruct (deleteProperty (jobs q) (loopKey l)) as [| [k0 j0] tl];
      inversion Hstep; subst; clear Hstep.
    + split; [left; reflexivity |]. simpl.
      destruct (String.eqb_spec (loopKey l) key) as [Heq | Hne]; [reflexivity |].
      rewrite <- (Hrest key) in Hstored by congruence. discriminate.
    + split; [right; split; [assumption | unfold soleLoop; cbn; discriminate] |].
      unfold owed, holdsKey, soleKey, soleLoop.
      cbn [jobs loops calls startedFor filter isStartOf option_map fst callKey].
      destruct (String.eqb_spec (loopKey l) key) as [Heq | Hne].
      * rewrite Heq in Hsame. rewrite Hsame.
        simpl in Hsame.
        destruct (String.eqb_spec k0 key); [discriminate | reflexivity].
      * rewrite (Hrest key) by congruence. rewrite Hstored.
        rewrite <- (Hrest key) in Hstored by congruence. simpl in Hstored.
        destruct (String.eqb_spec k0 key) as [-> | Hk0].
        -- inversion Hstored; subst. reflexivity.
        -- reflexivity.
  - (* a queued reaction runs *)
    unfold react in Hstep.
    destruct (calls q) eqn:Hc; [| discriminate].
    destruct (reactions q); [discriminate |].
    inversion Hstep; subst; clear Hstep.
    split.
    + right. split; [assumption |]. unfold soleLoop in *. cbn [loops calls].
      rewrite Hc in Hsole. exact Hsole.
    + unfold owed, holdsKey, soleKey, soleLoop. cbn [jobs loops calls].
      rewrite Hc. reflexivity.
Qed.

Lemma owed_run key events :
  forall q q' out,
    lookup (jobs q) key = None \/ (promise q = true /\ soleLoop q <> None) ->
    noAppendOf key events = true ->
    run shadows q events = Some (q', out) ->
    (lookup (jobs q') key = None \/ (promise q' = true /\ soleLoop q' <> None)) /\
    startedFor key out ++ owed key q' = owed key q.
Proof.
  induction events as [| e rest IH]; simpl; intros q q' out Hinv Hno Hrun.
  - inversion Hrun; subst. auto.
  - apply andb_true_iff in Hno. destruct Hno as [He Hrest].
    apply negb_true_iff in He.
    destruct (step shadows q e) as [[q1 out1] |] eqn:Hstep; [| discriminate].
    destruct (run shadows q1 rest) as [[q2 out2] |] eqn:Hrun'; [| discriminate].
    inversion Hrun; subst q2 out; clear Hrun.
    destruct (owed_step key q e q1 out1 Hinv He Hstep) as [Hinv1 Hcons1].
    destruct (IH q1 q' out2 Hinv1 Hrest Hrun') as [Hinv2 Hcons2].
    split; [assumption |].
    unfold startedFor. rewrite filter_app, <- app_assoc.
    fold (startedFor key out2). fold (startedFor key out1).
    rewrite Hcons2. exact Hcons1.
Qed.

(** ** Drain cycles with a single loop *)

Lemma callbacks_app (out1 out2 : list (Output Job)) :
  callbacks (out1 ++ out2) = (callbacks out1 + callbacks out2)%nat.
Proof. unfold callbacks. rewrite filter_app, length_app. reflexivity. Qed.

(** A stored assignment leaves the mapping non-empty. *)
Lemma assignJob_stored proto o key job o' :
  assignJob shadows proto o key job = Stored o' -> o' = assign o key job.
Proof.
  unfold assignJob. destruct (key =? "__proto__")%string; [discriminate |].
  destruct (negb (hasOwn o key) &&
            match proto with Some p => shadows p key | None => false end);
    [discriminate |].
  intros H. inversion H. reflexivity.
Qed.

(** One event of a cycle with a single loop: either it is the turn that
    finds the mapping empty, and the loop ends, or the loop is still the
    only one. *)
Lemma single_loop_step q e q1 out1 r b :
  soleLoop q = Some (r, b) ->
  jobs q <> [] ->
  isAppend e && negb (promise q) = false ->
  step shadows q e = Some (q1, out1) ->
  (jobs q1 = [] /\ loops q1 = [] /\ calls q1 = [] /\ promise q1 = false /\
   out1 = [] /\
   reactions q1 = if b || isFailure e then reactions q else S (reactions q)) \/
  (jobs q1 <> [] /\
   (exists r1, soleLoop q1 = Some (r1, b || isFailure e)) /\
   (callbacks out1 + reactions q1 = reactions q)%nat).
Proof.
  intros Hsole Hfull Hguard Hstep. unfold soleLoop in Hsole.
  destruct e as [jobId job | | i ok |]; simpl in Hguard, Hstep;
    cbn [isFailure]; rewrite ?orb_false_r.
  - apply negb_false_iff in Hguard.
    inversion Hstep as [Happend]; clear Hstep. unfold appendJob in Happend.
    right.
    destruct (assignJob shadows (prototype q) (jobs q) jobId job) as [o | |] eqn:Hassign;
      cbn [promise] in Happend; rewrite ?Hguard in Happend;
      inversion Happend; subst; clear Happend; cbn [jobs reactions].
    + apply assignJob_stored in Hassign. subst o.
      split; [apply assign_not_empty |].
      split; [exists r; unfold soleLoop; cbn [loops calls]; exact Hsole |].
      reflexivity.
    + split; [assumption |].
      split; [exists r; unfold soleLoop; cbn [loops calls]; exact Hsole |].
      reflexivity.
    + split; [assumption |].
      split; [exists r; unfold soleLoop; exact Hsole |]. reflexivity.
  - unfold returned in Hstep.
    destruct (loops q) as [| l [| l' ls]] eqn:Hl;
      destruct (calls q) as [| c [| c' cs]] eqn:Hc; try discriminate.
    inversion Hstep; subst; clear Hstep. inversion Hsole; subst.
    right. cbn [jobs reactions]. split; [assumption |].
    split; [exists (callKey c); reflexivity | reflexivity].
  - unfold resume in Hstep.
    destruct (calls q) as [| c cs] eqn:Hc; [| discriminate].
    destruct (loops q) as [| l [| l' ls]] eqn:Hl; try discriminate.
    destruct i as [| i]; [| destruct i; discriminate].
    cbn [nth_error] in Hstep. unfold loopTurn in Hstep.
    cbn [jobs promise prototype loops calls reactions removeNth firstn skipn app]
      in Hstep.
    inversion Hsole; subst.
    destruct (deleteProperty (jobs q) (loopKey l)) as [| [k0 j0] tl];
      inversion Hstep; subst; clear Hstep.
    + left. cbn. repeat split. destruct ok, (loopRejected l); reflexivity.
    + right. cbn [jobs reactions]. split; [discriminate |].
      split; [| reflexivity].
      exists k0. unfold soleLoop. cbn.
      destruct ok, (loopRejected l); reflexivity.
  - unfold react in Hstep.
    destruct (calls q) as [| c cs] eqn:Hc; [| discriminate].
    destruct (reactions q) as [| n] eqn:Hn; [discriminate |].
    inversion Hstep; subst; clear Hstep.
    right. cbn [jobs reactions]. split; [assumption |].
    split; [| reflexivity].
    exists r. unfold soleLoop. cbn [loops calls]. exact Hsole.
Qed.

Lemma cycleRest_single events :
  forall q q' out r b,
    soleLoop q = Some (r, b) ->
    jobs q <> [] ->
    cycleRest shadows q events = Some (q', out) ->
    (callbacks out + reactions q'
     = reactions q + (if b || existsb isFailure events then 0 else 1))%nat /\
    jobs q' = [] /\ loops q' = [] /\ calls q' = [] /\ promise q' = false.
Proof.
  induction events as [| e rest IH]; intros q q' out r b Hsole Hfull Hcycle;
    [discriminate |].
  cbn [cycleRest] in Hcycle.
  destruct (isAppend e && negb (promise q)) eqn:Hguard; [discriminate |].
  destruct (step shadows q e) as [[q1 out1] |] eqn:Hstep; [| discriminate].
  destruct (single_loop_step q e q1 out1 r b Hsole Hfull Hguard Hstep)
    as [[Hempty [Hl [Hc [Hp [Hout Hreact]]]]] | [Hfull1 [[r1 Hsole1] Hcount]]].
  - rewrite Hempty in Hcycle. destruct rest; [| discriminate].
    inversion Hcycle; subst q' out. cbn [existsb]. rewrite orb_false_r.
    rewrite Hreact, Hout. repeat split; try assumption.
    destruct (b || isFailure e); cbn; lia.
  - destruct (jobs q1) as [| p tl] eqn:Hjobs; [contradiction |].
    destruct rest as [| e' rest']; [discriminate |].
    destruct (cycleRest shadows q1 (e' :: rest')) as [[q2 out2] |] eqn:Hrest;
      [| discriminate].
    inversion Hcycle; subst q' out.
    assert (Hfull1' : jobs q1 <> []) by (rewrite Hjobs; discriminate).
    destruct (IH q1 q2 out2 r1 (b || isFailure e) Hsole1 Hfull1' Hrest)
      as [Hsum Hend].
    split; [| exact Hend].
    rewrite callbacks_app.
    change (existsb isFailure (e :: e' :: rest'))
      with (isFailure e || existsb isFailure (e' :: rest')).
    rewrite orb_assoc. lia.
Qed.

(** ** Listings of three keys *)


Lemma three_keys_out_of_order (A B C : string) (ja jb jc : Job) :
  A <> B -> A <> C -> B <> C ->
  listedBefore C B = true ->
  deleteProperty (assign (assign [(A, ja)] B jb) C jc) A = [(C, jc); (B, jb)].
Proof.
  intros HAB HAC HBC Horder.
  assert (EAB : (A =? B)%string = false) by (apply String.eqb_neq; assumption).
  assert (EAC : (A =? C)%string = false) by (apply String.eqb_neq; assumption).
  assert (EBC : (B =? C)%string = false) by (apply String.eqb_neq; assumption).
  assert (EBA : (B =? A)%string = false) by (apply String.eqb_neq; congruence).
  assert (ECA : (C =? A)%string = false) by (apply String.eqb_neq; congruence).
  unfold assign, hasOwn, deleteProperty; cbn. rewrite EAB; cbn.
  destruct (listedBefore B A); cbn;
    rewrite ?EAC, ?EBC, ?EBA; cbn; rewrite ?EAC, ?EBC; cbn;
    rewrite ?Horder; cbn;
    destruct (listedBefore C A); cbn; rewrite ?Horder; cbn;
    rewrite ?EBA, ?ECA, ?String.eqb_refl; cbn; reflexivity.
Qed.

(** Three jobs appended in one go to a new queue: the first is started at
    once, and when it has returned its promise the other two are only
    stored. *)
Lemma three_appends (A B C : string) (ja jb jc : Job) :
  A <> "__proto__" -> B <> "__proto__" -> C <> "__proto__" ->
  run shadows newQueue [AppendJob A ja; Returned; AppendJob B jb; AppendJob C jc]
    = Some ({| promise := true;
               jobs := assign (assign [(A, ja)] B jb) C jc;
               prototype := None;
               loops := [mkLoop A false]; calls := []; reactions := 0 |},
            [Started A ja]).
Proof.
  intros HA HB HC. apply String.eqb_neq in HA, HB, HC.
  cbn [run step]. unfold appendJob at 1. unfold assignJob. rewrite HA.
  cbn. unfold appendJob, assignJob. rewrite HB. cbn [prototype andb].
  rewrite andb_false_r. cbn. rewrite HC. rewrite andb_false_r. cbn.
  reflexivity.
Qed.

(** ** Appending to a busy queue *)

(** Jobs appended, with [this.promise] assigned, under new names that are
    not array indices line up behind the entries that are there, in the
    order of the calls, and none is started. *)
Lemma append_all_waiting :
  forall (entries : list (string * Job)) q,
    promise q = true ->
    prototype q = None ->
    (forall p, In p entries ->
               arrayIndex (fst p) = None /\ fst p <> "__proto__" /\
               ~ In (fst p) (keys (jobs q))) ->
    NoDup (keys entries) ->
    run shadows q (appendAll entries)
      = Some ({| promise := true; jobs := jobs q ++ entries; prototype := None;
                 loops := loops q; calls := calls q; reactions := reactions q |},
              []).
Proof.
  induction entries as [| [k j] rest IH]; intros q Hp Hproto Hall Hnd.
  - simpl. rewrite app_nil_r.
    destruct q as [p js pr ls cs rs]; simpl in *. subst. reflexivity.
  - destruct (Hall (k, j) (or_introl eq_refl)) as [Hidx [Hk Hnew]].
    simpl in Hidx, Hk, Hnew.
    change (appendAll ((k, j) :: rest)) with (AppendJob k j :: appendAll rest).
    cbn [run].
    assert (Hstores : stores shadows q k = true).
    { unfold stores. rewrite Hproto. apply String.eqb_neq in Hk. rewrite Hk.
      simpl. apply orb_true_r. }
    rewrite (append_stores q k j Hp Hstores).
    assert (Hassign : assign (jobs q) k j = jobs q ++ [(k, j)]).
    { unfold assign.
      destruct (hasOwn (jobs q) k) eqn:Hown.
      - apply hasOwn_In in Hown. contradiction.
      - apply create_at_end. assumption. }
    rewrite Hassign, Hproto.
    inversion Hnd as [| ? ? Hkrest Hrest]; subst.
    rewrite IH; cbn [promise prototype jobs loops calls reactions].
    + rewrite <- app_assoc. reflexivity.
    + reflexivity.
    + reflexivity.
    + intros p Hin. destruct (Hall p (or_intror Hin)) as [Hi [Hpr Hn]].
      split; [assumption |]. split; [assumption |].
      unfold keys. rewrite map_app. intros Hin'.
      apply in_app_or in Hin'. destruct Hin' as [Hin' | [Hin' | []]].
      * apply Hn. exact Hin'.
      * apply Hkrest. simpl in Hin'. rewrite Hin'.
        apply in_map_iff. exists p. split; [reflexivity | assumption].
    + assumption.
Qed.

(** ** Where the entries of the mapping come from *)

Lemma In_overwrite o key job (p : string * Job) :
  In p (overwrite o key job) -> p = (key, job) \/ In p o.
Proof.
  induction o as [| [k j] rest IH]; simpl; [tauto |].
  destruct (String.eqb_spec k key) as [-> | Hne]; simpl.
  - intros [<- | H]; auto.
  - intros [<- | H]; auto. destruct (IH H); auto.
Qed.

Lemma In_create o key job (p : string * Job) :
  In p (create o key job) -> p = (key, job) \/ In p o.
Proof.
  induction o as [| [k j] rest IH]; simpl.
  - intros [<- | []]. auto.
  - destruct (listedBefore key k); simpl.
    + intros [<- | H]; auto.
    + intros [<- | H]; auto. destruct (IH H); auto.
Qed.

Lemma In_assign o key job (p : string * Job) :
  In p (assign o key job) -> p = (key, job) \/ In p o.
Proof.
  unfold assign. destruct (hasOwn o key); [apply In_overwrite | apply In_create].
Qed.

Lemma In_delete o key (p : string * Job) :
  In p (deleteProperty o key) -> In p o.
Proof. unfold deleteProperty. rewrite filter_In. tauto. Qed.

Lemma loopTurn_provenance rejected executor q k j :
  In (Started k j) (snd (loopTurn rejected executor q)) \/
  In (k, j) (jobs (fst (loopTurn rejected executor q))) ->
  In (k, j) (jobs q).
Proof.
  unfold loopTurn. destruct (jobs q) as [| [k0 j0] tl]; simpl.
  - intros [[] | []].
  - intros [[H | []] | H]; [| exact H]. inversion H; subst. left. reflexivity.
Qed.

(** A job that is started, or stored, after a step was stored before it or
    is the job the step appends. *)
Lemma step_provenance q e q' out k j :
  step shadows q e = Some (q', out) ->
  In (Started k j) out \/ In (k, j) (jobs q') ->
  In (k, j) (jobs q) \/ e = AppendJob k j.
Proof.
  intros Hstep Hin. destruct e as [jobId job | | i ok |]; simpl in Hstep.
  - inversion Hstep as [Happend]; clear Hstep. unfold appendJob in Happend.
    destruct (assignJob shadows (prototype q) (jobs q) jobId job) as [o | |] eqn:Hassign.
    + apply assignJob_stored in Hassign. subst o.
      assert (Hstored : In (k, j) (assign (jobs q) jobId job)).
      { cbn [promise] in Happend. destruct (promise q).
        - inversion Happend; subst. simpl in Hin. destruct Hin as [[] | H]. exact H.
        - match type of Happend with
          | loopTurn ?r ?x ?q0 = _ =>
            pose proof (loopTurn_provenance r x q0 k j) as Hturn
          end.
          rewrite Happend in Hturn. exact (Hturn Hin). }
      apply In_assign in Hstored. destruct Hstored as [H | H]; [| auto].
      inversion H; subst. right. reflexivity.
    + left. cbn [promise] in Happend. destruct (promise q).
      * inversion Happend; subst. simpl in Hin. destruct Hin as [[] | H]. exact H.
      * match type of Happend with
        | loopTurn ?r ?x ?q0 = _ =>
          pose proof (loopTurn_provenance r x q0 k j) as Hturn
        end.
        rewrite Happend in Hturn. exact (Hturn Hin).
    + left. inversion Happend; subst.
      destruct Hin as [[H | []] | H]; [discriminate | exact H].
  - left. unfold returned in Hstep. destruct (calls q); [discriminate |].
    inversion Hstep; subst. destruct Hin as [[] | H]. exact H.
  - left. unfold resume in Hstep.
    destruct (calls q); [| discriminate].
    destruct (nth_error (loops q) i) as [l |]; [| discriminate].
    inversion Hstep as [Hturn']; clear Hstep.
    match type of Hturn' with
    | loopTurn ?r ?x ?q0 = _ =>
      pose proof (loopTurn_provenance r x q0 k j) as Hturn
    end.
    rewrite Hturn' in Hturn. apply (In_delete _ (loopKey l)). exact (Hturn Hin).
  - left. unfold react in Hstep.
    destruct (calls q); [| discriminate].
    destruct (reactions q); [discriminate |].
    inversion Hstep; subst.
    destruct Hin as [[H | []] | H]; [discriminate | exact H].
Qed.

Lemma run_provenance events :
  forall q q' out k j,
    run shadows q events = Some (q', out) ->
    In (Started k j) out \/ In (k, j) (jobs q') ->
    In (k, j) (jobs q) \/ In (AppendJob k j) events.
Proof.
  induction events as [| e rest IH]; simpl; intros q q' out k j Hrun Hin.
  - inversion Hrun; subst. destruct Hin as [[] | H]. auto.
  - destruct (step shadows q e) as [[q1 out1] |] eqn:Hstep; [| discriminate].
    destruct (run shadows q1 rest) as [[q2 out2] |] eqn:Hrest; [| discriminate].
    inversion Hrun; subst q2 out; clear Hrun.
    assert (Hmid : In (Started k j) out1 \/ In (k, j) (jobs q1) \/
                   In (AppendJob k j) rest).
    { destruct Hin as [Hout | Hstored].
      - apply in_app_or in Hout. destruct Hout as [H | H]; [auto |].
        destruct (IH q1 q' out2 k j Hrest (or_introl H)); auto.
      - destruct (IH q1 q' out2 k j Hrest (or_intror Hstored)); auto. }
    destruct Hmid as [H | [H | H]]; [| | auto].
    + destruct (step_provenance q e q1 out1 k j Hstep (or_introl H)); auto.
    + destruct (step_provenance q e q1 out1 k j Hstep (or_intror H)); auto.
Qed.

(** ** Draining, then the callback *)

(** The drain of [drain_in_listing_order], followed by the reaction it
    has queued, if any. *)
Lemma drain_then_callback q l ok oks :
  NoDup (keys (jobs q)) ->
  loops q = [l] ->
  calls q = [] ->
  List.length oks = List.length (deleteProperty (jobs q) (loopKey l)) ->
  run shadows q (settleAll (ok :: oks) ++
                 (if loopRejected l || negb (allOk (ok :: oks))
                  then [] else [Reaction]))
    = Some ({| promise := false; jobs := []; prototype := prototype q;
               loops := []; calls := []; reactions := reactions q |},
            starts (deleteProperty (jobs q) (loopKey l)) ++
            (if loopRejected l || negb (allOk (ok :: oks))
             then [] else [OnEmptyQueue])).
Proof.
  intros Hnd Hl Hc Hlen.
  rewrite run_app.
  rewrite (drain_in_listing_order _ q l ok oks Hnd Hl Hc eq_refl Hlen).
  destruct (loopRejected l || negb (allOk (ok :: oks))); reflexivity.
Qed.

End Facts.

(** ** Coalescing *)

(** C1 fails as stated: a queue executing job 0 under "k" receives jobs 1
    and 2 under "k" before either has started; when job 0 completes the
    entry under "k" (job 2 by then) is deleted, and neither job 1 nor
    job 2 is ever executed. *)
Lemma appended_twice_under_the_running_key_never_runs :
  run plainFunction newQueue
      [AppendJob "k" 0%nat; Returned; AppendJob "k" 1%nat; AppendJob "k" 2%nat;
       Settled 0 true; Reaction]
    = Some (newQueue, [Started "k" 0%nat; OnEmptyQueue]) /\
  ~ In (Started "k" 2%nat) [Started "k" 0%nat; OnEmptyQueue].
Proof.
  split; [reflexivity |].
  intros [H | [H | []]]; discriminate.
Qed.

(** C1, amended.  A single drain loop is running, with [this.promise]
    assigned, and is executing under a key [r] other than [k]; the
    assignment [this.jobs[k] = job] stores.  [appendJob(k, job1)] is
    called, and later [appendJob(k, job2)], with no other [appendJob]
    under [k] before, between or after, and without [job1] having been
    started in between.  Then neither call starts a job, and once the
    mapping is empty the bodies executed under [k] are [job2], once:
    [job1] is never executed. *)
Theorem coalesced_job_runs_once_with_second_body
  {Job : Type} (shadows : Job -> string -> bool)
  (q q1 q' : Queue Job) (r k : string) (job1 job2 : Job)
  (between after : list (Event Job)) (out1 out2 : list (Output Job)) :
  promise q = true ->
  soleKey q = Some r ->
  r <> k ->
  stores shadows q k = true ->
  noAppendOf k between = true ->
  noAppendOf k after = true ->
  run shadows q (AppendJob k job1 :: between) = Some (q1, out1) ->
  startedFor k out1 = [] ->
  run shadows q1 (AppendJob k job2 :: after) = Some (q', out2) ->
  jobs q' = [] ->
  (exists q0, step shadows q (AppendJob k job1) = Some (q0, [])) /\
  (exists q2, step shadows q1 (AppendJob k job2) = Some (q2, []) /\
              lookup (jobs q2) k = Some job2) /\
  startedFor k (out1 ++ out2) = [Started k job2].
Proof.
  intros Hp Hsole Hrk Hstores Hno1 Hno2 Hrun1 Hnone Hrun2 Hempty.
  assert (Hk : (k =? "__proto__")%string = false).
  { unfold stores in Hstores. apply andb_true_iff in Hstores.
    apply negb_true_iff. exact (proj1 Hstores). }
  (* the first call *)
  pose proof (append_stores shadows q k job1 Hp Hstores) as Hstep1.
  set (q0 := {| promise := true; jobs := assign (jobs q) k job1;
                prototype := prototype q; loops := loops q; calls := calls q;
                reactions := reactions q |}) in *.
  cbn [run] in Hrun1. rewrite Hstep1 in Hrun1.
  destruct (run shadows q0 between) as [[q1' out1'] |] eqn:Hbetween; [| discriminate].
  inversion Hrun1; subst q1' out1; clear Hrun1. cbn [app] in Hnone.
  assert (Hsole0 : soleLoop q0 <> None).
  { unfold soleKey in Hsole. unfold soleLoop in *. cbn [loops calls q0].
    destruct (loops q) as [| l [| l' ls]], (calls q) as [| c [| c' cs]];
      try discriminate. }
  assert (Howed0 : owed k q0 = [Started k job1]).
  { unfold owed, holdsKey. cbn [jobs q0]. rewrite lookup_assign_same.
    replace (soleKey q0) with (soleKey q) by reflexivity. rewrite Hsole.
    destruct (String.eqb_spec r k); [contradiction | reflexivity]. }
  destruct (owed_run shadows k between q0 q1 out1' (or_intror (conj eq_refl Hsole0))
              Hno1 Hbetween) as [Hinv1 Hcons1].
  rewrite Hnone, Howed0 in Hcons1. cbn [app] in Hcons1.
  (* the second call *)
  assert (Hstored1 : lookup (jobs q1) k = Some job1 /\ holdsKey k q1 = false).
  { unfold owed in Hcons1.
    destruct (lookup (jobs q1) k) as [j |]; [| discriminate].
    destruct (holdsKey k q1); [discriminate |].
    inversion Hcons1; subst. auto. }
  destruct Hstored1 as [Hstored1 Hholds1].
  destruct Hinv1 as [Habsent | [Hp1 Hsole1]];
    [rewrite Hstored1 in Habsent; discriminate |].
  assert (Hstores1 : stores shadows q1 k = true).
  { unfold stores, hasOwn. rewrite Hk, Hstored1. reflexivity. }
  pose proof (append_stores shadows q1 k job2 Hp1 Hstores1) as Hstep2.
  set (q2 := {| promise := true; jobs := assign (jobs q1) k job2;
                prototype := prototype q1; loops := loops q1; calls := calls q1;
                reactions := reactions q1 |}) in *.
  cbn [run] in Hrun2. rewrite Hstep2 in Hrun2.
  destruct (run shadows q2 after) as [[q2' out2'] |] eqn:Hafter; [| discriminate].
  inversion Hrun2; subst q2' out2; clear Hrun2. cbn [app].
  assert (Howed2 : owed k q2 = [Started k job2]).
  { unfold owed. cbn [jobs q2]. rewrite lookup_assign_same.
    replace (holdsKey k q2) with (holdsKey k q1) by reflexivity.
    rewrite Hholds1. reflexivity. }
  destruct (owed_run shadows k after q2 q' out2' (or_intror (conj eq_refl Hsole1))
              Hno2 Hafter) as [_ Hcons2].
  rewrite Howed2, (owed_absent k q') in Hcons2
    by (rewrite Hempty; reflexivity).
  rewrite app_nil_r in Hcons2.
  split; [exists q0; exact Hstep1 |].
  split; [exists q2; split; [exact Hstep2 | apply lookup_assign_same] |].
  unfold startedFor. rewrite filter_app.
  fold (startedFor k out1'). fold (startedFor k out2').
  rewrite Hnone, Hcons2. reflexivity.
Qed.

(** A queue executing job 0 under "j".  Job 1 is appended under "k";
    then job 7 under "1", which is listed first, so that when job 0
    settles job 7 is started; then job 2 under "k". *)
Lemma coalesced_job_witness :
  let q := {| promise := true; jobs := [("j", 0%nat)]; prototype := None;
              loops := [mkLoop "j" false]; calls := []; reactions := 0 |} in
  let q1 := {| promise := true; jobs := [("1", 7%nat); ("k", 1%nat)];
               prototype := None;
               loops := [mkLoop "1" false]; calls := []; reactions := 0 |} in
  run plainFunction newQueue [AppendJob "j" 0%nat; Returned]
    = Some (q, [Started "j" 0%nat]) /\
  run plainFunction q
      [AppendJob "k" 1%nat; AppendJob "1" 7%nat; Settled 0 true; Returned]
    = Some (q1, [Started "1" 7%nat]) /\
  run plainFunction q1
      [AppendJob "k" 2%nat; Settled 0 true; Returned; Settled 0 true; Reaction]
    = Some (newQueue, [Started "k" 2%nat; OnEmptyQueue]) /\
  startedFor "k" ([Started "1" 7%nat] ++ [Started "k" 2%nat; OnEmptyQueue])
    = [Started "k" 2%nat].
Proof.
  intros q q1.
  split; [reflexivity |]. split; [reflexivity |]. split; [reflexivity |].
  apply (proj2 (proj2 (coalesced_job_runs_once_with_second_body
                         plainFunction q q1 newQueue "j" "k" 1%nat 2%nat
                         [AppendJob "1" 7%nat; Settled 0 true; Returned]
                         [Settled 0 true; Returned; Settled 0 true; Reaction]
                         [Started "1" 7%nat] [Started "k" 2%nat; OnEmptyQueue]
                         eq_refl eq_refl ltac:(discriminate) eq_refl
                         eq_refl eq_refl eq_refl eq_refl eq_refl eq_refl))).
Defined.

(** ** Appending under the key that is being executed *)

(** C2 fails: job 1 is appended under "k" while job 0, stored under "k",
    is executing; when job 0 completes the mapping is empty, the callback
    fires and job 1 has not been executed. *)
Lemma appended_under_the_running_key_is_dropped :
  run plainFunction newQueue
      [AppendJob "k" 0%nat; Returned; AppendJob "k" 1%nat; Settled 0 true; Reaction]
    = Some (newQueue, [Started "k" 0%nat; OnEmptyQueue]) /\
  ~ In (Started "k" 1%nat) [Started "k" 0%nat; OnEmptyQueue].
Proof.
  split; [reflexivity |].
  intros [H | [H | []]]; discriminate.
Qed.

(** C2, amended.  A single drain loop is running, with [this.promise]
    assigned, and is executing the job stored under [k].
    [appendJob(k, newJob)] then starts nothing and leaves the loop where it
    is; [newJob] takes the place of the entry under [k]; when the running
    job settles that entry is deleted; and as long as nothing more is
    appended under [k] no body is executed under [k].  When instead
    [appendJob(k, newJob)] is called while [this.promise] is undefined and
    [k] is the first key of the mapping (as when the job under [k], first
    of its cycle, makes the call before its first suspension), a new loop
    is started and calls [newJob] at once. *)
Theorem append_under_running_key_overwrites_and_is_deleted
  {Job : Type} (shadows : Job -> string -> bool)
  (q : Queue Job) (k : string) (newJob : Job) :
  promise q = true ->
  soleKey q = Some k ->
  stores shadows q k = true ->
  (exists q1,
     step shadows q (AppendJob k newJob) = Some (q1, []) /\
     loops q1 = loops q /\ calls q1 = calls q /\
     lookup (jobs q1) k = Some newJob /\
     (forall ok q2 out2,
         step shadows q1 (Settled 0 ok) = Some (q2, out2) ->
         lookup (jobs q2) k = None /\ startedFor k out2 = []) /\
     (forall events q' out,
         noAppendOf k events = true ->
         run shadows q1 events = Some (q', out) ->
         startedFor k out = [])) /\
  (forall (qs : Queue Job) job0 rest,
      promise qs = false ->
      jobs qs = (k, job0) :: rest ->
      step shadows qs (AppendJob k newJob)
        = Some ({| promise := false; jobs := (k, newJob) :: rest;
                   prototype := prototype qs; loops := loops qs;
                   calls := mkCall k false true :: calls qs;
                   reactions := reactions qs |},
                [Started k newJob])).
Proof.
  intros Hp Hsole Hstores.
  assert (Hk : (k =? "__proto__")%string = false).
  { unfold stores in Hstores. apply andb_true_iff in Hstores.
    apply negb_true_iff. exact (proj1 Hstores). }
  split.
  - pose proof (append_stores shadows q k newJob Hp Hstores) as Hstep1.
    set (q1 := {| promise := true; jobs := assign (jobs q) k newJob;
                  prototype := prototype q; loops := loops q; calls := calls q;
                  reactions := reactions q |}) in *.
    assert (Hsole1 : soleLoop q1 <> None).
    { unfold soleKey in Hsole. unfold soleLoop in *. cbn [loops calls q1].
      destruct (loops q) as [| l [| l' ls]], (calls q) as [| c [| c' cs]];
        try discriminate. }
    assert (Howed1 : owed k q1 = []).
    { unfold owed, holdsKey. cbn [jobs q1]. rewrite lookup_assign_same.
      replace (soleKey q1) with (soleKey q) by reflexivity. rewrite Hsole.
      rewrite String.eqb_refl. reflexivity. }
    exists q1. split; [exact Hstep1 |]. split; [reflexivity |].
    split; [reflexivity |]. split; [apply lookup_assign_same |]. split.
    + intros ok q2 out2 Hstep2.
      destruct (owed_step shadows k q1 (Settled 0 ok) q2 out2
                  (or_intror (conj eq_refl Hsole1)) eq_refl Hstep2) as [_ Hcons].
      rewrite Howed1 in Hcons. apply app_eq_nil in Hcons.
      split; [| exact (proj1 Hcons)].
      simpl in Hstep2. unfold resume in Hstep2. cbn [calls loops q1] in Hstep2.
      unfold soleKey, soleLoop in Hsole.
      destruct (calls q) as [| c cs]; [| discriminate].
      destruct (loops q) as [| l [| l' ls]]; try discriminate.
      cbn [nth_error] in Hstep2. inversion Hstep2 as [Hturn]; clear Hstep2.
      simpl in Hsole. inversion Hsole as [Hkey].
      match type of Hturn with
      | loopTurn ?r ?x ?q0 = _ => pose proof (loopTurn_jobs r x q0) as Hjobs
      end.
      rewrite Hturn in Hjobs. simpl in Hjobs. rewrite Hjobs.
      apply lookup_delete_same.
    + intros events q' out Hno Hrun.
      destruct (owed_run shadows k events q1 q' out
                  (or_intror (conj eq_refl Hsole1)) Hno Hrun) as [_ Hcons].
      rewrite Howed1 in Hcons. apply app_eq_nil in Hcons. exact (proj1 Hcons).
  - intros qs job0 rest Hps Hjobs. simpl. unfold appendJob, assignJob.
    rewrite Hk, Hjobs. unfold hasOwn, assign, hasOwn. cbn [lookup].
    rewrite String.eqb_refl. cbn [negb andb overwrite].
    rewrite String.eqb_refl. cbn [promise]. rewrite Hps. reflexivity.
Qed.

(** A queue executing job 0 under "k", with job 7 waiting under "w". *)
Lemma append_under_running_key_witness :
  let q := {| promise := true; jobs := [("k", 0%nat); ("w", 7%nat)];
              prototype := None;
              loops := [mkLoop "k" false]; calls := []; reactions := 0 |} in
  run plainFunction newQueue [AppendJob "k" 0%nat; Returned; AppendJob "w" 7%nat]
    = Some (q, [Started "k" 0%nat]) /\
  run plainFunction q
      [AppendJob "k" 1%nat; Settled 0 true; Returned; Settled 0 true; Reaction]
    = Some (newQueue, [Started "w" 7%nat; OnEmptyQueue]) /\
  startedFor "k" [Started "w" 7%nat; OnEmptyQueue] = [].
Proof.
  intros q. split; [reflexivity |]. split; [reflexivity |].
  destruct (proj1 (append_under_running_key_overwrites_and_is_deleted
                     plainFunction q "k" 1%nat eq_refl eq_refl eq_refl))
    as [q1 [Hstep [_ [_ [_ [_ Hnever]]]]]].
  apply (Hnever [Settled 0 true; Returned; Settled 0 true; Reaction] newQueue).
  - reflexivity.
  - inversion Hstep; subst q1. reflexivity.
Defined.

(** ** Draining *)




(** ** A job body that throws *)

(** C4 fails for a job waiting under the key of the job that throws: job 2
    is appended under "b" while job 0, stored under "b", is executing, and
    is in the mapping when job 0 throws; job 1 under "c" is executed
    afterwards, job 2 never. *)
Lemma pending_under_the_failed_key_never_runs :
  run plainFunction newQueue
      [AppendJob "b" 0%nat; Returned; AppendJob "c" 1%nat; AppendJob "b" 2%nat]
    = Some ({| promise := true; jobs := [("b", 2%nat); ("c", 1%nat)];
               prototype := None;
               loops := [mkLoop "b" false]; calls := []; reactions := 0 |},
            [Started "b" 0%nat]) /\
  run plainFunction newQueue
      [AppendJob "b" 0%nat; Returned; AppendJob "c" 1%nat; AppendJob "b" 2%nat;
       Settled 0 false; Returned; Settled 0 true]
    = Some (newQueue, [Started "b" 0%nat; Started "c" 1%nat]) /\
  ~ In (Started "b" 2%nat) [Started "b" 0%nat; Started "c" 1%nat].
Proof.
  split; [reflexivity |]. split; [reflexivity |].
  intros [H | [H | []]]; discriminate.
Qed.

(** C4, amended.  When the job that the only drain loop is executing,
    under [r], throws, the failure is recorded on the promise of the loop
    and the loop goes on: once the jobs started after it have settled,
    whatever their outcomes, every job that was stored under a key other
    than [r] has been executed (in listing order), nothing has been
    executed under [r], the mapping is empty, and no [onEmptyQueue]
    reaction has been queued. *)
Theorem failure_does_not_stop_the_loop
  {Job : Type} (shadows : Job -> string -> bool)
  (q : Queue Job) (r : string) (oks : list bool) :
  reachable shadows q ->
  soleKey q = Some r ->
  calls q = [] ->
  List.length oks = List.length (deleteProperty (jobs q) r) ->
  exists q' out,
    run shadows q (settleAll (false :: oks)) = Some (q', out) /\
    (forall q1 out1,
        step shadows q (Settled 0 false) = Some (q1, out1) ->
        jobs q1 <> [] -> exists r1, soleLoop q1 = Some (r1, true)) /\
    reactions q' = reactions q /\
    jobs q' = [] /\
    loops q' = [] /\
    out = starts (deleteProperty (jobs q) r) /\
    (forall k job, In (k, job) (jobs q) -> k <> r -> In (Started k job) out) /\
    startedFor r out = [].
Proof.
  intros Hreach Hsole Hc Hlen.
  pose proof (reachable_NoDup shadows q Hreach) as Hnd.
  unfold soleKey, soleLoop in Hsole. rewrite Hc in Hsole.
  destruct (loops q) as [| l [| l' ls]] eqn:Hl; try discriminate.
  simpl in Hsole. inversion Hsole as [Hkey]. rewrite Hkey in *.
  pose proof (drain_in_listing_order shadows _ q l false oks Hnd Hl Hc
                ltac:(rewrite Hkey; reflexivity) Hlen) as Hrun.
  replace (loopRejected l || negb (allOk (false :: oks))) with true in Hrun
    by (destruct (loopRejected l); reflexivity).
  eexists. eexists. split; [exact Hrun |].
  split; [| split; [reflexivity |]; split; [reflexivity |];
            split; [reflexivity |]; split; [reflexivity |]; split].
  - intros q1 out1 Hstep Hfull. simpl in Hstep. unfold resume in Hstep.
    rewrite Hc, Hl in Hstep. cbn [nth_error] in Hstep. unfold loopTurn in Hstep.
    cbn [jobs promise prototype loops calls reactions] in Hstep.
    destruct (deleteProperty (jobs q) (loopKey l)) as [| [k0 j0] tl];
      inversion Hstep; subst; clear Hstep.
    + exfalso. apply Hfull. reflexivity.
    + exists k0. reflexivity.
  - intros k job Hin Hne. unfold starts.
    apply in_map_iff. exists (k, job). split; [reflexivity |].
    unfold deleteProperty. apply filter_In. split; [assumption |].
    simpl. apply negb_true_iff. apply String.eqb_neq. assumption.
  - clear. unfold startedFor, starts, deleteProperty.
    induction (jobs q) as [| [k j] rest IH]; simpl; [reflexivity |].
    destruct (String.eqb_spec k r) as [-> | Hne]; simpl; [exact IH |].
    destruct (String.eqb_spec k r); [contradiction | exact IH].
Qed.

(** Job 0 throws under "b" while jobs 1 and 2 wait under "c" and "d". *)
Lemma failure_does_not_stop_witness :
  let q := {| promise := true;
              jobs := [("b", 0%nat); ("c", 1%nat); ("d", 2%nat)];
              prototype := None;
              loops := [mkLoop "b" false]; calls := []; reactions := 0 |} in
  reachable plainFunction q /\
  exists q' out,
    run plainFunction q (settleAll (false :: [true; true])) = Some (q', out) /\
    (forall q1 out1,
        step plainFunction q (Settled 0 false) = Some (q1, out1) ->
        jobs q1 <> [] -> exists r1, soleLoop q1 = Some (r1, true)) /\
    reactions q' = reactions q /\
    jobs q' = [] /\
    loops q' = [] /\
    out = [Started "c" 1%nat; Started "d" 2%nat] /\
    (forall k job, In (k, job) (jobs q) -> k <> "b" -> In (Started k job) out) /\
    startedFor "b" out = [].
Proof.
  intros q.
  assert (Hreach : reachable plainFunction q).
  { exists [AppendJob "b" 0%nat; Returned; AppendJob "c" 1%nat; AppendJob "d" 2%nat],
           [Started "b" 0%nat].
    reflexivity. }
  split; [exact Hreach |].
  apply (failure_does_not_stop_the_loop plainFunction q "b" [true; true]
           Hreach eq_refl eq_refl eq_refl).
Defined.

(** ** The completion callback *)

(** C5 fails in a cycle in which a body threw: the job appended to a new
    queue throws, the mapping empties and the loop ends, and no
    [onEmptyQueue] reaction is queued: the callback is never called. *)
Lemma no_callback_after_a_failure :
  cycle plainFunction newQueue [AppendJob "a" 0%nat; Returned; Settled 0 false]
    = Some (newQueue, [Started "a" 0%nat]) /\
  callbacks [Started "a" 0%nat] = 0%nat /\
  step plainFunction newQueue Reaction = None.
Proof. split; [| split]; reflexivity. Qed.

(** C5, amended.  Take a drain cycle that starts on an idle queue (empty
    mapping, no loop, [this.promise] undefined) and in which [appendJob]
    is not called while [this.promise] is still unassigned, so that the
    cycle has a single loop.  When the mapping is empty again the loop
    has ended and [this.promise] is undefined; the cycle has queued one
    [onEmptyQueue] reaction if no job body threw and none if one did; and
    the reaction, when it runs, calls [onEmptyQueue] once.  Counting the
    reactions that ran during the cycle and those still queued at its
    end, there is one more than were queued at its start, or as many. *)
Theorem callback_once_per_cycle_without_failure
  {Job : Type} (shadows : Job -> string -> bool)
  (q q' : Queue Job) (events : list (Event Job)) (out : list (Output Job)) :
  jobs q = [] ->
  loops q = [] ->
  calls q = [] ->
  promise q = false ->
  cycle shadows q events = Some (q', out) ->
  (callbacks out + reactions q'
   = reactions q + (if existsb isFailure events then 0 else 1))%nat /\
  (callbacks out + reactions q' <= reactions q + 1)%nat /\
  jobs q' = [] /\ loops q' = [] /\ calls q' = [] /\ promise q' = false /\
  (forall n, reactions q' = S n ->
             step shadows q' Reaction
               = Some ({| promise := false; jobs := []; prototype := prototype q';
                          loops := []; calls := []; reactions := n |},
                       [OnEmptyQueue])).
Proof.
  intros Hempty Hl Hc Hp Hcycle.
  destruct events as [| e rest]; [discriminate |].
  cbn [cycle] in Hcycle.
  destruct (step shadows q e) as [[q1 out1] |] eqn:Hstep; [| discriminate].
  destruct (jobs q1) as [| p tl] eqn:Hjobs1; [discriminate |].
  destruct (cycleRest shadows q1 rest) as [[q2 out2] |] eqn:Hrest; [| discriminate].
  inversion Hcycle; subst q' out; clear Hcycle.
  (* the first event is an appendJob that stores and starts the loop *)
  assert (Hfirst : exists k job,
             e = AppendJob k job /\ out1 = [Started k job] /\
             soleLoop q1 = Some (k, false) /\ reactions q1 = reactions q).
  { destruct e as [jobId job | | i ok |]; simpl in Hstep.
    - inversion Hstep as [Happend]; clear Hstep. unfold appendJob in Happend.
      destruct (assignJob shadows (prototype q) (jobs q) jobId job) as [o | |] eqn:Hassign;
        cbn [promise] in Happend; rewrite ?Hp in Happend.
      + apply assignJob_stored in Hassign. subst o.
        rewrite Hempty in Happend. unfold loopTurn in Happend.
        cbn in Happend. inversion Happend; subst; clear Happend.
        exists jobId, job. unfold soleLoop. cbn. rewrite Hl, Hc. auto.
      + unfold loopTurn in Happend. cbn [jobs] in Happend.
        rewrite Hempty in Happend. inversion Happend; subst. discriminate.
      + inversion Happend; subst. rewrite Hempty in Hjobs1. discriminate.
    - unfold returned in Hstep. rewrite Hc in Hstep. discriminate.
    - unfold resume in Hstep. rewrite Hc, Hl in Hstep.
      destruct i; discriminate.
    - unfold react in Hstep. rewrite Hc in Hstep.
      destruct (reactions q); [discriminate |].
      inversion Hstep; subst. cbn in Hjobs1. rewrite Hempty in Hjobs1.
      discriminate. }
  destruct Hfirst as [k [job [He [Hout1 [Hsole1 Hreact1]]]]]. subst e out1.
  assert (Hfull1 : jobs q1 <> []) by (rewrite Hjobs1; discriminate).
  destruct (cycleRest_single shadows rest q1 q2 out2 k false Hsole1 Hfull1 Hrest)
    as [Hsum [Hj2 [Hl2 [Hc2 Hp2]]]].
  cbn [orb] in Hsum. rewrite Hreact1 in Hsum.
  change (existsb isFailure (AppendJob k job :: rest))
    with (existsb isFailure rest).
  assert (Hcount : callbacks ([Started k job] ++ out2) = callbacks out2)
    by reflexivity.
  rewrite Hcount.
  split; [exact Hsum |].
  split; [destruct (existsb isFailure rest); lia |].
  split; [assumption |]. split; [assumption |]. split; [assumption |].
  split; [assumption |].
  intros n Hn. simpl. unfold react. rewrite Hc2, Hn, Hp2, Hj2, Hl2. reflexivity.
Qed.

(** A cycle of two jobs that both complete, on a queue that still has the
    reaction of its previous cycle queued: that one runs during the new
    cycle, and the new cycle queues its own. *)
Lemma callback_once_witness :
  let q := {| promise := false; jobs := []; prototype := None;
              loops := []; calls := []; reactions := 1 |} in
  let events := [AppendJob "a" 0%nat; Returned; Reaction; AppendJob "b" 1%nat;
                 Settled 0 true; Returned; Settled 0 true] in
  run plainFunction newQueue [AppendJob "z" 9%nat; Returned; Settled 0 true]
    = Some (q, [Started "z" 9%nat]) /\
  cycle plainFunction q events
    = Some (q, [Started "a" 0%nat; OnEmptyQueue; Started "b" 1%nat]) /\
  (callbacks [Started "a" 0%nat; OnEmptyQueue; Started "b" 1%nat] + reactions q
   = reactions q + 1)%nat.
Proof.
  intros q events.
  split; [reflexivity |]. split; [reflexivity |].
  apply (proj1 (callback_once_per_cycle_without_failure plainFunction
                  q q events [Started "a" 0%nat; OnEmptyQueue; Started "b" 1%nat]
                  eq_refl eq_refl eq_refl eq_refl eq_refl)).
Defined.

End QueueSpec.

(* ================================================================== *)
(** * Further properties of the request executor *)
(* ================================================================== *)

Module GitlabApiMore.
Import GitlabApi GitlabApiSpec.

(** An error of [fetch] that is not transient ends the loop in the turn
    that receives it. *)
Lemma retryLoop_rethrow fetch fuel c e :
  fetch (c + 1) = Throw e ->
  isTransient e = false ->
  retryLoop fetch (S fuel) c = Some (Throw e, [Fetch (c + 1)]).
Proof.
  intros Hfetch Hhard. rewrite retryLoop_unfold. cbv zeta.
  rewrite Hfetch, Hhard, andb_false_r. reflexivity.
Qed.

Lemma retryLoop_rethrows_after fetch e :
  forall (n fuel : nat) (c : Z),
    (n < fuel)%nat ->
    c + Z.of_nat n < numberOfRequestRetries ->
    (forall i, c < i <= c + Z.of_nat n -> retryable (fetch i) = true) ->
    fetch (c + Z.of_nat n + 1) = Throw e ->
    isTransient e = false ->
    retryLoop fetch fuel c = Some (Throw e, backoffLog (c + 1) (S n)).
Proof.
  induction n as [| n IH]; intros fuel c Hfuel Hc Hfirst Hfetch Hhard;
    destruct fuel as [| fuel]; try lia.
  - replace (c + Z.of_nat 0 + 1) with (c + 1) in Hfetch by lia.
    apply retryLoop_rethrow; assumption.
  - rewrite retryLoop_retry by (try apply Hfirst; lia).
    rewrite (IH fuel (c + 1)); try assumption; try lia.
    + rewrite backoffLog_cons. reflexivity.
    + intros i Hi. apply Hfirst. lia.
    + rewrite <- Hfetch. f_equal. lia.
Qed.

(** Every result of the loop, read backwards: the attempts before the
    last were all retried, and the last one decided. *)
Lemma retryLoop_outcome fetch :
  forall (fuel : nat) (c : Z) r log,
    c < numberOfRequestRetries ->
    retryLoop fetch fuel c = Some (r, log) ->
    exists n : nat,
      (1 <= n)%nat /\ c + Z.of_nat n <= numberOfRequestRetries /\
      log = backoffLog (c + 1) n /\
      (forall i, c < i < c + Z.of_nat n -> retryable (fetch i) = true) /\
      decidedBy (fetch (c + Z.of_nat n)) (c + Z.of_nat n) r.
Proof.
  induction fuel as [| fuel IH]; intros c r log Hc Hrun; [discriminate |].
  rewrite retryLoop_unfold in Hrun. cbv zeta in Hrun.
  (* the turn goes round again *)
  assert (Hagain :
    retryable (fetch (c + 1)) = true ->
    c + 1 < numberOfRequestRetries ->
    match retryLoop fetch fuel (c + 1) with
    | Some (r0, log0) => Some (r0, Fetch (c + 1) :: Sleep sleepTimeout :: log0)
    | None => None
    end = Some (r, log) ->
    exists n : nat,
      (1 <= n)%nat /\ c + Z.of_nat n <= numberOfRequestRetries /\
      log = backoffLog (c + 1) n /\
      (forall i, c < i < c + Z.of_nat n -> retryable (fetch i) = true) /\
      decidedBy (fetch (c + Z.of_nat n)) (c + Z.of_nat n) r).
  { intros Hretry Hlt Hnext.
    destruct (retryLoop fetch fuel (c + 1)) as [[r0 log0] |] eqn:Hrec;
      [| discriminate].
    inversion Hnext; subst r0 log; clear Hnext.
    destruct (IH (c + 1) r log0 Hlt Hrec) as [n [Hn [Hbound [Hlog [Hbefore Hlast]]]]].
    exists (S n).
    replace (c + Z.of_nat (S n)) with (c + 1 + Z.of_nat n) by lia.
    split; [lia |]. split; [assumption |]. split; [| split].
    - destruct n as [| n]; [lia |]. rewrite backoffLog_cons, Hlog. reflexivity.
    - intros i Hi. destruct (Z.eq_dec i (c + 1)) as [-> | Hne]; [assumption |].
      apply Hbefore. lia.
    - assumption. }
  (* the turn is the last one *)
  assert (Hone : forall r',
    decidedBy (fetch (c + 1)) (c + 1) r' ->
    Some (r', [Fetch (c + 1)]) = Some (r, log) ->
    exists n : nat,
      (1 <= n)%nat /\ c + Z.of_nat n <= numberOfRequestRetries /\
      log = backoffLog (c + 1) n /\
      (forall i, c < i < c + Z.of_nat n -> retryable (fetch i) = true) /\
      decidedBy (fetch (c + Z.of_nat n)) (c + Z.of_nat n) r).
  { intros r' Hdecided Heq. inversion Heq; subst r' log; clear Heq.
    exists 1%nat. replace (c + Z.of_nat 1) with (c + 1) by lia.
    split; [lia |]. split; [lia |]. split; [reflexivity |].
    split; [intros i Hi; lia | assumption]. }
  destruct (fetch (c + 1)) as [response | e] eqn:Hfetch.
  - destruct (status response >=? 500) eqn:Hstatus.
    + destruct (c + 1 >=? numberOfRequestRetries) eqn:Hge.
      * simpl isTransient in Hrun. rewrite andb_false_r in Hrun.
        rewrite Z.geb_leb in Hge, Hstatus. apply Z.leb_le in Hge, Hstatus.
        apply (Hone _) in Hrun; [assumption |].
        right. split; [lia |]. exists response. repeat split. assumption.
      * rewrite Z.geb_leb in Hge. apply Z.leb_gt in Hge.
        apply Hagain; assumption.
    + rewrite Z.geb_leb in Hstatus. apply Z.leb_gt in Hstatus.
      apply (Hone _) in Hrun; [assumption |]. split; [reflexivity | assumption].
  - destruct (c + 1 <? numberOfRequestRetries) eqn:Hlt;
      destruct (isTransient e) eqn:Htransient; simpl in Hrun.
    + apply Z.ltb_lt in Hlt. apply Hagain; assumption.
    + apply (Hone _) in Hrun; [assumption |]. left. auto.
    + apply Z.ltb_ge in Hlt. apply (Hone _) in Hrun; [assumption |].
      left. split; [reflexivity |]. right. lia.
    + apply (Hone _) in Hrun; [assumption |]. left. auto.
Qed.

(** X1.  Whatever the network does, [sendRawRequest] makes between one
    and twenty attempts, numbered from 1, and sleeps exactly 10000 ms
    between two consecutive attempts and at no other time. *)
Theorem at_most_twenty_attempts_with_fixed_backoff fetch (fuel : nat) r log :
  sendRawRequest fetch fuel = Some (r, log) ->
  exists n : nat,
    (1 <= n <= 20)%nat /\
    log = backoffLog 1 n /\
    attempts log = n /\
    sleeps log = repeat 10000 (n - 1).
Proof.
  intros Hrun. unfold sendRawRequest in Hrun.
  destruct (retryLoop_outcome fetch fuel 0 r log) as [n [Hn [Hbound [Hlog _]]]];
    [unfold numberOfRequestRetries; lia | assumption |].
  unfold numberOfRequestRetries in Hbound.
  exists n. split; [lia |]. split; [exact Hlog |]. split.
  - rewrite Hlog. apply attempts_backoffLog.
  - rewrite Hlog. destruct n as [| n]; [lia |].
    replace (S n - 1)%nat with n by lia. apply (sleeps_backoffLog n).
Qed.

(** Three timeouts, then an error that is not retried. *)
Lemma at_most_twenty_attempts_witness :
  let fetch : Z -> Result Response :=
    fun i => if i <=? 3 then Throw (FetchError "request-timeout")
             else Throw (FetchError "unsupported-redirect") in
  exists n : nat,
    (1 <= n <= 20)%nat /\
    [Fetch 1; Sleep 10000; Fetch 2; Sleep 10000; Fetch 3; Sleep 10000; Fetch 4]
      = backoffLog 1 n /\
    attempts [Fetch 1; Sleep 10000; Fetch 2; Sleep 10000; Fetch 3; Sleep 10000; Fetch 4]
      = n /\
    sleeps [Fetch 1; Sleep 10000; Fetch 2; Sleep 10000; Fetch 3; Sleep 10000; Fetch 4]
      = repeat 10000 (n - 1).
Proof.
  intros fetch.
  apply (at_most_twenty_attempts_with_fixed_backoff fetch 20
           (Throw (FetchError "unsupported-redirect"))).
  reflexivity.
Defined.

(** X2.  The result of [sendRawRequest] is decided by its last attempt,
    and every attempt before the last was retried: a returned response is
    the one the last attempt received; a thrown error is the one the last
    attempt raised, unless it is the error made at the twentieth attempt
    from a status of 500 or more. *)
Theorem result_is_decided_by_the_last_attempt fetch (fuel : nat) r log :
  sendRawRequest fetch fuel = Some (r, log) ->
  (forall i, 1 <= i < Z.of_nat (attempts log) -> retryable (fetch i) = true) /\
  decidedBy (fetch (Z.of_nat (attempts log))) (Z.of_nat (attempts log)) r.
Proof.
  intros Hrun. unfold sendRawRequest in Hrun.
  destruct (retryLoop_outcome fetch fuel 0 r log)
    as [n [Hn [Hbound [Hlog [Hbefore Hlast]]]]];
    [unfold numberOfRequestRetries; lia | assumption |].
  assert (Hattempts : attempts log = n) by (rewrite Hlog; apply attempts_backoffLog).
  rewrite Hattempts. split.
  - intros i Hi. apply Hbefore. lia.
  - exact Hlast.
Qed.

(** A 502, then a 404: the 404 is what comes back. *)
Lemma result_is_decided_witness :
  let fetch := fun i => if i <=? 1 then Ok (mkResponse 502 (Ok JNull))
                        else Ok (mkResponse 404 (Ok JNull)) in
  (forall i, 1 <= i < 2 -> retryable (fetch i) = true) /\
  decidedBy (fetch 2) 2 (Ok (mkResponse 404 (Ok JNull))).
Proof.
  intros fetch.
  apply (result_is_decided_by_the_last_attempt fetch 20
           (Ok (mkResponse 404 (Ok JNull)))
           [Fetch 1; Sleep 10000; Fetch 2]).
  reflexivity.
Defined.

(** X3.  An error of [fetch] that is not a FetchError of type 'system' or
    'request-timeout' is never retried: after N retried attempts (N < 20)
    it is thrown again as it is by attempt N+1, with no sleep after it. *)
Theorem other_errors_are_thrown_at_once fetch (fuel N : nat) e :
  (20 <= fuel)%nat ->
  (N < 20)%nat ->
  (forall i, 1 <= i <= Z.of_nat N -> retryable (fetch i) = true) ->
  fetch (Z.of_nat N + 1) = Throw e ->
  isTransient e = false ->
  sendRawRequest fetch fuel = Some (Throw e, backoffLog 1 (S N)) /\
  attempts (backoffLog 1 (S N)) = S N /\
  sleeps (backoffLog 1 (S N)) = repeat 10000 N.
Proof.
  intros Hfuel HN Hfirst Hfetch Hhard. split; [| split].
  - unfold sendRawRequest.
    apply (retryLoop_rethrows_after fetch e N fuel 0);
      unfold numberOfRequestRetries; try lia; try assumption.
    intros i Hi. apply Hfirst. lia.
  - apply attempts_backoffLog.
  - apply (sleeps_backoffLog N).
Qed.

(** The very first attempt fails on a redirect loop. *)
Lemma other_errors_witness :
  sendRawRequest (fun _ : Z => Throw (FetchError "max-redirect")) 20
    = Some (Throw (FetchError "max-redirect"), [Fetch 1]) /\
  attempts [Fetch 1] = 1%nat /\
  sleeps [Fetch 1] = [].
Proof.
  apply (other_errors_are_thrown_at_once
           (fun _ => Throw (FetchError "max-redirect")) 20 0).
  - lia.
  - lia.
  - intros i Hi. simpl in Hi. lia.
  - reflexivity.
  - reflexivity.
Defined.

(** ** The callers of [sendRawRequest] *)

Lemma validateResponseStatus_ok response :
  validateResponseStatus response = Ok tt -> 200 <= status response < 300.
Proof.
  unfold validateResponseStatus.
  destruct (status response =? 401); [discriminate |].
  destruct (status response =? 403); [discriminate |].
  rewrite Z.geb_leb.
  destruct (Z.ltb_spec (status response) 200); [discriminate |].
  destruct (Z.leb_spec 300 (status response)); [discriminate |].
  intros _. lia.
Qed.

(** A first response below 500 is returned by the first attempt. *)
Lemma sendRawRequest_first_response fetch (fuel : nat) response :
  (1 <= fuel)%nat ->
  fetch 1 = Ok response ->
  status response < 500 ->
  sendRawRequest fetch fuel = Some (Ok response, [Fetch 1]).
Proof.
  intros Hfuel Hfetch Hstatus. destruct fuel as [| fuel]; [lia |].
  unfold sendRawRequest. apply (retryLoop_return fetch fuel 0); assumption.
Qed.

(** X4.  A first response whose status is below 500 and outside [200,300)
    (401, 403, any other 4xx, a 3xx or 1xx) makes the two typed helpers
    and [rebaseMergeRequest] fail after that single attempt, without any
    sleep and without reading the body, with the error of the status
    check: 'Unauthorized' for 401, 'Forbidden' for 403, 'Unexpected status
    code' with the status otherwise. *)
Theorem status_failure_after_a_single_attempt fetch (fuel : nat) response :
  (1 <= fuel)%nat ->
  fetch 1 = Ok response ->
  status response < 500 ->
  ~ 200 <= status response < 300 ->
  exists e,
    (status response = 401 -> e = Unauthorized) /\
    (status response = 403 -> e = Forbidden) /\
    (status response <> 401 -> status response <> 403 ->
     e = UnexpectedStatus (status response)) /\
    sendRequestWithSingleResponse fetch fuel = Some (Throw e, [Fetch 1]) /\
    sendRequestWithMultiResponse fetch fuel = Some (Throw e, [Fetch 1]) /\
    rebaseMergeRequest fetch fuel = Some (Throw e, [Fetch 1]).
Proof.
  intros Hfuel Hfetch Hstatus Hnot2xx.
  pose proof (sendRawRequest_first_response fetch fuel response Hfuel Hfetch Hstatus)
    as Hraw.
  unfold sendRequestWithSingleResponse, sendRequestWithMultiResponse,
    rebaseMergeRequest, singleResponse, multiResponse.
  rewrite Hraw. simpl bind.
  destruct (validateResponseStatus response) as [[] | e] eqn:Hvalid.
  - apply validateResponseStatus_ok in Hvalid. contradiction.
  - exists e. unfold validateResponseStatus in Hvalid.
    destruct (Z.eqb_spec (status response) 401) as [H401 | H401].
    { inversion Hvalid; subst e. repeat split; try reflexivity; intros; lia. }
    destruct (Z.eqb_spec (status response) 403) as [H403 | H403].
    { inversion Hvalid; subst e. repeat split; try reflexivity; intros; lia. }
    destruct ((status response <? 200) || (status response >=? 300));
      [| discriminate].
    inversion Hvalid; subst e. repeat split; try reflexivity; intros; lia.
Qed.

(** A 403 at the first attempt. *)
Lemma status_failure_witness :
  sendRequestWithSingleResponse
    (fun _ => Ok (mkResponse 403 (Ok (JObject [])))) 20
    = Some (Throw Forbidden, [Fetch 1]).
Proof.
  destruct (status_failure_after_a_single_attempt
              (fun _ => Ok (mkResponse 403 (Ok (JObject [])))) 20
              (mkResponse 403 (Ok (JObject []))))
    as [e [_ [H403 [_ [Hsingle _]]]]].
  - lia.
  - reflexivity.
  - simpl; lia.
  - simpl; lia.
  - rewrite Hsingle. rewrite (H403 eq_refl). reflexivity.
Defined.

(** X5.  On a response that passes the status check, the single-object
    helper looks at [typeof] of the decoded body and at nothing else: a
    boolean, a number or a string is 'Invalid response', anything else is
    returned unchanged.  The test on [id] never changes the outcome: an
    object is returned whether or not it has an [id] field. *)
Theorem single_response_depends_on_typeof_only response data :
  validateResponseStatus response = Ok tt ->
  json response = Ok data ->
  singleResponse (Ok response)
    = (if (typeof data =? "object")%string then Ok data else Throw InvalidResponse) /\
  (forall fields, data = JObject fields -> singleResponse (Ok response) = Ok data).
Proof.
  intros Hvalid Hjson. unfold singleResponse. simpl bind.
  rewrite Hvalid, Hjson. simpl bind.
  split.
  - destruct data; reflexivity.
  - intros fields ->. reflexivity.
Qed.

(** An object without an [id] field. *)
Lemma single_response_typeof_witness :
  singleResponse (Ok (mkResponse 200 (Ok (JObject [("name", JString "x")]))))
    = Ok (JObject [("name", JString "x")]).
Proof.
  apply (proj2 (single_response_depends_on_typeof_only
                  (mkResponse 200 (Ok (JObject [("name", JString "x")])))
                  (JObject [("name", JString "x")]) eq_refl eq_refl)
           [("name", JString "x")] eq_refl).
Defined.

(** What a typed helper returns comes from the response of the last
    attempt, which passed the status check. *)
Lemma helper_result_comes_from_last_response fetch (fuel : nat) raw log :
  sendRawRequest fetch fuel = Some (raw, log) ->
  forall (check : Json -> bool) data,
    (response <- raw ;;
     _ <- validateResponseStatus response ;;
     body <- json response ;;
     if check body then Throw InvalidResponse else Ok body) = Ok data ->
    check data = false /\
    exists response,
      fetch (Z.of_nat (attempts log)) = Ok response /\
      200 <= status response < 300 /\
      json response = Ok data.
Proof.
  intros Hrun check data Hdata. unfold sendRawRequest in Hrun.
  destruct (retryLoop_outcome fetch fuel 0 raw log)
    as [n [Hn [Hbound [Hlog [_ Hlast]]]]];
    [unfold numberOfRequestRetries; lia | assumption |].
  assert (Hattempts : attempts log = n) by (rewrite Hlog; apply attempts_backoffLog).
  rewrite Hattempts. simpl in Hlast.
  destruct raw as [response | e]; [| discriminate].
  simpl in Hlast, Hdata. destruct Hlast as [Hfetch _].
  destruct (validateResponseStatus response) as [[] | e] eqn:Hvalid; [| discriminate].
  simpl in Hdata. destruct (json response) as [body | e] eqn:Hjson; [| discriminate].
  simpl in Hdata. destruct (check body) eqn:Hcheck; [discriminate |].
  inversion Hdata; subst body. split; [assumption |].
  exists response. split; [assumption |].
  split; [apply validateResponseStatus_ok; assumption | assumption].
Qed.

(** X6.  Whatever the network does, what [sendRequestWithMultiResponse]
    returns is an array, the decoded body of the response received by the
    last attempt, and that response has a status in [200,300). *)
Theorem multi_response_returns_an_array_of_a_2xx fetch (fuel : nat) data log :
  sendRequestWithMultiResponse fetch fuel = Some (Ok data, log) ->
  isArray data = true /\
  exists response,
    fetch (Z.of_nat (attempts log)) = Ok response /\
    200 <= status response < 300 /\
    json response = Ok data.
Proof.
  unfold sendRequestWithMultiResponse, multiResponse. intros Hrun.
  destruct (sendRawRequest fetch fuel) as [[raw log0] |] eqn:Hraw; [| discriminate].
  injection Hrun as Hdata Hlog. subst log0.
  destruct (helper_result_comes_from_last_response fetch fuel raw log Hraw
              (fun body => negb (isArray body)) data Hdata) as [Hcheck Hresp].
  split; [| exact Hresp]. apply negb_false_iff in Hcheck. exact Hcheck.
Qed.

(** A 500 and then a 200 with an array of one element. *)
Lemma multi_response_witness :
  let fetch := fun i => if i <=? 1 then Ok (mkResponse 500 (Ok JNull))
                        else Ok (mkResponse 200 (Ok (JArray [JNumber 7]))) in
  isArray (JArray [JNumber 7]) = true /\
  exists response,
    fetch 2 = Ok response /\
    200 <= status response < 300 /\
    json response = Ok (JArray [JNumber 7]).
Proof.
  intros fetch.
  apply (multi_response_returns_an_array_of_a_2xx fetch 20 (JArray [JNumber 7])
           [Fetch 1; Sleep 10000; Fetch 2]).
  reflexivity.
Defined.

(** X7.  Whatever the network does, what [sendRequestWithSingleResponse]
    returns has [typeof] 'object' (an object, an array or null); it is the
    decoded body of the response received by the last attempt, and that
    response has a status in [200,300). *)
Theorem single_response_returns_typeof_object_of_a_2xx fetch (fuel : nat) data log :
  sendRequestWithSingleResponse fetch fuel = Some (Ok data, log) ->
  typeof data = "object" /\
  exists response,
    fetch (Z.of_nat (attempts log)) = Ok response /\
    200 <= status response < 300 /\
    json response = Ok data.
Proof.
  unfold sendRequestWithSingleResponse. intros Hrun.
  destruct (sendRawRequest fetch fuel) as [[raw log0] |] eqn:Hraw; [| discriminate].
  injection Hrun as Hdata Hlog. subst log0.
  assert (Hsame : forall (response : Response) body,
             (invalid <- (if negb (typeof body =? "object")%string
                          then idIsUndefined body else Ok false) ;;
              if invalid then Throw InvalidResponse else Ok body)
             = (if negb (typeof body =? "object")%string
                then Throw InvalidResponse else Ok body) :> Result Json).
  { intros _ body. destruct body; reflexivity. }
  assert (Hdata' :
            (response <- raw ;;
             _ <- validateResponseStatus response ;;
             body <- json response ;;
             if negb (typeof body =? "object")%string
             then Throw InvalidResponse else Ok body) = Ok data).
  { rewrite <- Hdata. unfold singleResponse.
    destruct raw as [response | e]; [| reflexivity]. simpl bind.
    destruct (validateResponseStatus response) as [[] | e]; [| reflexivity].
    simpl bind. destruct (json response) as [body | e]; [| reflexivity].
    simpl bind. symmetry. apply (Hsame response). }
  destruct (helper_result_comes_from_last_response fetch fuel raw log Hraw
              (fun body => negb (typeof body =? "object")%string) data Hdata')
    as [Hcheck Hresp].
  split; [| exact Hresp].
  apply negb_false_iff in Hcheck. apply String.eqb_eq in Hcheck. exact Hcheck.
Qed.

(** A transient error and then a 201 with an object. *)
Lemma single_response_witness :
  let fetch := fun i => if i <=? 1 then Throw (FetchError "system")
                        else Ok (mkResponse 201 (Ok (JObject [("id", JNumber 1)]))) in
  typeof (JObject [("id", JNumber 1)]) = "object" /\
  exists response,
    fetch 2 = Ok response /\
    200 <= status response < 300 /\
    json response = Ok (JObject [("id", JNumber 1)]).
Proof.
  intros fetch.
  apply (single_response_returns_typeof_object_of_a_2xx fetch 20
           (JObject [("id", JNumber 1)]) [Fetch 1; Sleep 10000; Fetch 2]).
  reflexivity.
Defined.

(** X8.  When the first response has a status in [200,300) and its body
    cannot be decoded, the two typed helpers throw the error of
    [response.json()], while [rebaseMergeRequest], which does not decode
    the body, succeeds; all three after a single attempt. *)
Theorem undecodable_body_fails_the_typed_helpers_only
  fetch (fuel : nat) response e :
  (1 <= fuel)%nat ->
  fetch 1 = Ok response ->
  200 <= status response < 300 ->
  json response = Throw e ->
  sendRequestWithSingleResponse fetch fuel = Some (Throw e, [Fetch 1]) /\
  sendRequestWithMultiResponse fetch fuel = Some (Throw e, [Fetch 1]) /\
  rebaseMergeRequest fetch fuel = Some (Ok tt, [Fetch 1]).
Proof.
  intros Hfuel Hfetch Hstatus Hjson.
  pose proof (sendRawRequest_first_response fetch fuel response Hfuel Hfetch
                ltac:(lia)) as Hraw.
  assert (Hvalid : validateResponseStatus response = Ok tt).
  { unfold validateResponseStatus.
    destruct (Z.eqb_spec (status response) 401); [lia |].
    destruct (Z.eqb_spec (status response) 403); [lia |].
    rewrite Z.geb_leb.
    destruct (Z.ltb_spec (status response) 200); [lia |].
    destruct (Z.leb_spec 300 (status response)); [lia | reflexivity]. }
  unfold sendRequestWithSingleResponse, sendRequestWithMultiResponse,
    rebaseMergeRequest, singleResponse, multiResponse.
  rewrite Hraw. simpl bind. rewrite Hvalid. simpl bind. rewrite Hjson.
  repeat split.
Qed.

(** A 200 with an empty body. *)
Lemma undecodable_body_witness :
  let fetch := fun _ : Z => Ok (mkResponse 200 (Throw (FetchError "invalid-json"))) in
  sendRequestWithSingleResponse fetch 20
    = Some (Throw (FetchError "invalid-json"), [Fetch 1]) /\
  sendRequestWithMultiResponse fetch 20
    = Some (Throw (FetchError "invalid-json"), [Fetch 1]) /\
  rebaseMergeRequest fetch 20 = Some (Ok tt, [Fetch 1]).
Proof.
  intros fetch.
  apply (undecodable_body_fails_the_typed_helpers_only fetch 20
           (mkResponse 200 (Throw (FetchError "invalid-json")))).
  - lia.
  - reflexivity.
  - simpl; lia.
  - reflexivity.
Defined.

(** The loop reads nothing of a response but its status. *)
Lemma retryLoop_sameButBody fetch fetch' :
  (forall i, sameButBody (fetch i) (fetch' i)) ->
  forall (fuel : nat) (c : Z),
    match retryLoop fetch fuel c, retryLoop fetch' fuel c with
    | Some (r, log), Some (r', log') => sameButBody r r' /\ log = log'
    | None, None => True
    | _, _ => False
    end.
Proof.
  intros Hsame. induction fuel as [| fuel IH]; intros c; [exact I |].
  rewrite !retryLoop_unfold. cbv zeta.
  specialize (IH (c + 1)). specialize (Hsame (c + 1)).
  assert (Hagain :
    match
      match retryLoop fetch fuel (c + 1) with
      | Some (r0, log0) => Some (r0, Fetch (c + 1) :: Sleep sleepTimeout :: log0)
      | None => None
      end,
      match retryLoop fetch' fuel (c + 1) with
      | Some (r0, log0) => Some (r0, Fetch (c + 1) :: Sleep sleepTimeout :: log0)
      | None => None
      end
    with
    | Some (r, log), Some (r', log') => sameButBody r r' /\ log = log'
    | None, None => True
    | _, _ => False
    end).
  { destruct (retryLoop fetch fuel (c + 1)) as [[r log] |],
             (retryLoop fetch' fuel (c + 1)) as [[r' log'] |]; try exact IH.
    destruct IH as [Hr Hlog]. split; [assumption | rewrite Hlog; reflexivity]. }
  destruct (fetch (c + 1)) as [r1 | e1], (fetch' (c + 1)) as [r2 | e2];
    simpl in Hsame; try contradiction.
  - rewrite <- Hsame.
    destruct (status r1 >=? 500).
    + destruct (c + 1 >=? numberOfRequestRetries); [| exact Hagain].
      simpl isTransient. rewrite andb_false_r. split; reflexivity.
    + split; [exact Hsame | reflexivity].
  - subst e2.
    destruct ((c + 1 <? numberOfRequestRetries) && isTransient e1);
      [exact Hagain | split; reflexivity].
Qed.

(** X9.  The attempts and sleeps of [sendRawRequest], and the whole
    outcome of [rebaseMergeRequest], depend on the statuses received and
    the errors raised, never on the bodies of the responses. *)
Theorem retries_do_not_depend_on_bodies fetch fetch' (fuel : nat) :
  (forall i, sameButBody (fetch i) (fetch' i)) ->
  option_map snd (sendRawRequest fetch fuel)
    = option_map snd (sendRawRequest fetch' fuel) /\
  rebaseMergeRequest fetch fuel = rebaseMergeRequest fetch' fuel.
Proof.
  intros Hsame.
  pose proof (retryLoop_sameButBody fetch fetch' Hsame fuel 0) as Hloop.
  unfold rebaseMergeRequest, sendRawRequest.
  destruct (retryLoop fetch fuel 0) as [[r log] |],
           (retryLoop fetch' fuel 0) as [[r' log'] |]; try contradiction.
  - destruct Hloop as [Hr Hlog]. subst log'. split; [reflexivity |].
    destruct r as [r1 | e1], r' as [r2 | e2]; simpl in Hr; try contradiction.
    + simpl bind. unfold validateResponseStatus. rewrite Hr. reflexivity.
    + subst e2. reflexivity.
  - split; reflexivity.
Qed.

(** The same statuses, 503 then 204, once with bodies and once with bodies
    that cannot be decoded. *)
Lemma retries_do_not_depend_on_bodies_witness :
  let fetch := fun i => if i <=? 1 then Ok (mkResponse 503 (Ok (JString "busy")))
                        else Ok (mkResponse 204 (Ok JNull)) in
  let fetch' := fun i => if i <=? 1
                         then Ok (mkResponse 503 (Throw (FetchError "invalid-json")))
                         else Ok (mkResponse 204 (Throw (FetchError "invalid-json"))) in
  option_map snd (sendRawRequest fetch 20) = option_map snd (sendRawRequest fetch' 20) /\
  rebaseMergeRequest fetch 20 = rebaseMergeRequest fetch' 20.
Proof.
  intros fetch fetch'.
  apply (retries_do_not_depend_on_bodies fetch fetch' 20).
  intros i. unfold fetch, fetch'. destruct (i <=? 1); reflexivity.
Defined.

End GitlabApiMore.

(* ================================================================== *)
(** * Further properties of the queue *)
(* ================================================================== *)

Module QueueMore.
Import Queue QueueSpec.

Section Stuck.
Context {Job : Type} (shadows : Job -> string -> bool).
Implicit Types (q : Queue Job) (e : Event Job).

(** A queue whose [this.promise] is assigned while no loop exists and no
    job is in its synchronous part stays so. *)
Lemma stuck_step q e q' out :
  promise q = true /\ loops q = [] /\ calls q = [] ->
  step shadows q e = Some (q', out) ->
  (promise q' = true /\ loops q' = [] /\ calls q' = []) /\
  executions out = 0%nat /\
  (callbacks out + reactions q' <= reactions q)%nat.
Proof.
  intros [Hp [Hl Hc]] Hstep.
  destruct e as [jobId job | | i ok |]; simpl in Hstep.
  - inversion Hstep as [Happend]; clear Hstep. unfold appendJob in Happend.
    destruct (assignJob shadows (prototype q) (jobs q) jobId job);
      cbn [promise] in Happend; rewrite ?Hp in Happend;
      inversion Happend; subst; cbn; auto.
  - unfold returned in Hstep. rewrite Hc in Hstep. discriminate.
  - unfold resume in Hstep. rewrite Hc, Hl in Hstep. destruct i; discriminate.
  - unfold react in Hstep. rewrite Hc in Hstep.
    destruct (reactions q) as [| n]; [discriminate |].
    inversion Hstep; subst. cbn. auto.
Qed.

Lemma executions_app (out1 out2 : list (Output Job)) :
  executions (out1 ++ out2) = (executions out1 + executions out2)%nat.
Proof.
  unfold executions. rewrite filter_app, length_app. reflexivity.
Qed.

Lemma stuck_run events :
  forall q q' out,
    promise q = true /\ loops q = [] /\ calls q = [] ->
    run shadows q events = Some (q', out) ->
    (promise q' = true /\ loops q' = [] /\ calls q' = []) /\
    executions out = 0%nat /\
    (callbacks out + reactions q' <= reactions q)%nat.
Proof.
  induction events as [| e rest IH]; simpl; intros q q' out Hstuck Hrun.
  - inversion Hrun; subst. cbn. auto.
  - destruct (step shadows q e) as [[q1 out1] |] eqn:Hstep; [| discriminate].
    destruct (run shadows q1 rest) as [[q2 out2] |] eqn:Hrest; [| discriminate].
    inversion Hrun; subst q2 out; clear Hrun.
    destruct (stuck_step q e q1 out1 Hstuck Hstep) as [Hstuck1 [Hex1 Hcb1]].
    destruct (IH q1 q' out2 Hstuck1 Hrest) as [Hstuck2 [Hex2 Hcb2]].
    rewrite executions_app, callbacks_app.
    split; [assumption |]. split; lia.
Qed.

(** [this.promise] is undefined only on a queue whose mapping is empty,
    or inside a promise executor, before [appendJob] has assigned it. *)
Lemma assigned_step q e q' out :
  (promise q = false ->
   (calls q = [] /\ jobs q = []) \/ existsb inExecutor (calls q) = true) ->
  step shadows q e = Some (q', out) ->
  promise q' = false ->
  (calls q' = [] /\ jobs q' = []) \/ existsb inExecutor (calls q') = true.
Proof.
  intros Hinv Hstep Hp'.
  destruct e as [jobId job | | i ok |]; simpl in Hstep.
  - inversion Hstep as [Happend]; clear Hstep. unfold appendJob in Happend.
    destruct (assignJob shadows (prototype q) (jobs q) jobId job) as [o | |];
      cbn [promise] in Happend;
      [ | | inversion Happend; subst; auto ];
      (destruct (promise q) eqn:Hp;
       [ inversion Happend; subst; cbn in Hp'; congruence
       | unfold loopTurn in Happend; cbn [jobs] in Happend ]).
    + destruct o as [| [k j] tl]; inversion Happend; subst; cbn in *;
        [discriminate | auto].
    + destruct (jobs q) as [| [k j] tl]; inversion Happend; subst; cbn in *;
        [discriminate | auto].
  - unfold returned in Hstep.
    destruct (calls q) as [| c rest] eqn:Hc; [discriminate |].
    inversion Hstep; subst; clear Hstep. cbn in *.
    destruct (inExecutor c) eqn:Hexec; [discriminate |].
    destruct (Hinv Hp') as [[Hnil _] | Hsome]; [discriminate |].
    right. exact Hsome.
  - unfold resume in Hstep.
    destruct (calls q) eqn:Hc; [| discriminate].
    destruct (nth_error (loops q) i) as [l |]; [| discriminate].
    inversion Hstep as [Hturn]; clear Hstep. unfold loopTurn in Hturn.
    cbn [jobs promise prototype loops calls reactions] in Hturn.
    destruct (deleteProperty (jobs q) (loopKey l)) as [| [k j] tl] eqn:Hdel;
      inversion Hturn; subst; clear Hturn; cbn in *; [auto |].
    destruct (Hinv Hp') as [[_ Hnil] | Hsome]; [| discriminate].
    rewrite Hnil in Hdel. discriminate.
  - unfold react in Hstep.
    destruct (calls q) eqn:Hc; [| discriminate].
    destruct (reactions q); [discriminate |].
    inversion Hstep; subst; clear Hstep. cbn in *.
    destruct (Hinv Hp') as [[_ Hnil] | Hsome]; [auto | discriminate].
Qed.

Lemma assigned_run events :
  forall q q' out,
    (promise q = false ->
     (calls q = [] /\ jobs q = []) \/ existsb inExecutor (calls q) = true) ->
    run shadows q events = Some (q', out) ->
    promise q' = false ->
    (calls q' = [] /\ jobs q' = []) \/ existsb inExecutor (calls q') = true.
Proof.
  induction events as [| e rest IH]; simpl; intros q q' out Hinv Hrun.
  - inversion Hrun; subst. exact Hinv.
  - destruct (step shadows q e) as [[q1 out1] |] eqn:Hstep; [| discriminate].
    destruct (run shadows q1 rest) as [[q2 out2] |] eqn:Hrest; [| discriminate].
    inversion Hrun; subst q2 out; clear Hrun.
    apply (IH q1 q' out2); [| assumption].
    apply (assigned_step q e q1 out1 Hinv Hstep).
Qed.

End Stuck.

(** X12.  The queue runs no job of its own making: every job body it
    calls was passed to [appendJob], under the key it is run for. *)
Theorem only_appended_jobs_are_executed
  {Job : Type} (shadows : Job -> string -> bool)
  (events : list (Event Job)) (q : Queue Job) out (k : string) (job : Job) :
  run shadows newQueue events = Some (q, out) ->
  In (Started k job) out ->
  In (AppendJob k job) events.
Proof.
  intros Hrun Hin.
  destruct (run_provenance shadows events newQueue q out k job Hrun (or_introl Hin))
    as [[] | H].
  exact H.
Qed.

(** Job 1 is overwritten by job 2 while it waits; jobs 0 and 2 run. *)
Lemma only_appended_jobs_witness :
  In (AppendJob "b" 2%nat)
     [AppendJob "a" 0%nat; Returned; AppendJob "b" 1%nat; AppendJob "b" 2%nat;
      Settled 0 true; Returned; Settled 0 true; Reaction].
Proof.
  apply (only_appended_jobs_are_executed plainFunction
           [AppendJob "a" 0%nat; Returned; AppendJob "b" 1%nat; AppendJob "b" 2%nat;
            Settled 0 true; Returned; Settled 0 true; Reaction]
           newQueue [Started "a" 0%nat; Started "b" 2%nat; OnEmptyQueue]).
  - reflexivity.
  - simpl. auto.
Defined.

(** X15.  First in, first out, for any number of jobs whose keys are
    distinct, are not array indices, and are not ["__proto__"]: appended
    in one go to a new queue (the first job suspends, then the others are
    appended), they are executed in the order of the calls, each once,
    whatever their outcomes, and the mapping is then empty; the callback
    follows, once, when they all completed, and is not called when one of
    them threw. *)
Theorem jobs_with_plain_keys_run_in_order_of_arrival
  {Job : Type} (shadows : Job -> string -> bool)
  (k : string) (job : Job) (others : list (string * Job))
  (ok : bool) (oks : list bool) :
  (forall p, In p ((k, job) :: others) ->
             arrayIndex (fst p) = None /\ fst p <> "__proto__") ->
  NoDup (keys ((k, job) :: others)) ->
  List.length oks = List.length others ->
  run shadows newQueue
      ([AppendJob k job; Returned] ++ appendAll others ++
       settleAll (ok :: oks) ++
       (if allOk (ok :: oks) then [Reaction] else []))
    = Some (newQueue,
            starts ((k, job) :: others) ++
            (if allOk (ok :: oks) then [OnEmptyQueue] else [])).
Proof.
  intros Hall Hnd Hlen.
  destruct (Hall (k, job) (or_introl eq_refl)) as [_ Hproto]. simpl in Hproto.
  set (q1 := {| promise := true; jobs := [(k, job)]; prototype := None;
                loops := [mkLoop k false]; calls := []; reactions := 0 |}).
  assert (Hfirst : run shadows newQueue [AppendJob k job; Returned]
                   = Some (q1, [Started k job])).
  { cbn [run step]. unfold appendJob, assignJob.
    apply String.eqb_neq in Hproto. rewrite Hproto. reflexivity. }
  inversion Hnd as [| ? ? Hk Hothers]; subst.
  assert (Hrest : run shadows q1 (appendAll others)
                  = Some ({| promise := true; jobs := (k, job) :: others;
                             prototype := None;
                             loops := [mkLoop k false]; calls := [];
                             reactions := 0 |}, [])).
  { apply (append_all_waiting shadows others q1 eq_refl eq_refl); [| assumption].
    intros p Hp. destruct (Hall p (or_intror Hp)) as [Hi Hpr].
    split; [assumption |]. split; [assumption |].
    cbn. intros [Heq | []]. apply Hk. rewrite Heq.
    apply in_map_iff. exists p. split; [reflexivity | assumption]. }
  set (q2 := {| promise := true; jobs := (k, job) :: others; prototype := None;
                loops := [mkLoop k false]; calls := []; reactions := 0 |}) in *.
  pose proof (drain_then_callback shadows q2 (mkLoop k false) ok oks
                Hnd eq_refl eq_refl) as Hdrain.
  cbn [loopKey loopRejected jobs q2 orb prototype reactions] in Hdrain.
  rewrite (delete_head others k job Hnd) in Hdrain.
  specialize (Hdrain Hlen).
  rewrite run_app, Hfirst, run_app, Hrest.
  replace (if allOk (ok :: oks) then [@Reaction Job] else [])
    with (if negb (allOk (ok :: oks)) then [] else [@Reaction Job])
    by (destruct (allOk (ok :: oks)); reflexivity).
  rewrite Hdrain. cbn [app]. f_equal. f_equal. f_equal.
  destruct (allOk (ok :: oks)); reflexivity.
Qed.

(** Four merge requests, the third of which fails. *)
Lemma jobs_in_order_of_arrival_witness :
  run plainFunction newQueue
      [AppendJob "mr-9" 9%nat; Returned; AppendJob "mr-3" 3%nat;
       AppendJob "mr-7" 7%nat; AppendJob "mr-1" 1%nat;
       Settled 0 true; Returned; Settled 0 true; Returned; Settled 0 false;
       Returned; Settled 0 true]
    = Some (newQueue,
            [Started "mr-9" 9%nat; Started "mr-3" 3%nat; Started "mr-7" 7%nat;
             Started "mr-1" 1%nat]).
Proof.
  apply (jobs_with_plain_keys_run_in_order_of_arrival plainFunction
           "mr-9" 9%nat [("mr-3", 3%nat); ("mr-7", 7%nat); ("mr-1", 1%nat)]
           true [true; false; true]).
  - intros p [<- | [<- | [<- | [<- | []]]]]; (split; [reflexivity | discriminate]).
  - repeat constructor; simpl; intuition discriminate.
  - reflexivity.
Defined.

(** X17.  The other side of the listing order, for distinct keys A, B, C,
    none of them ["__proto__"]: when [Object.keys] lists C before B (C is
    an array index, and B is not one or is a larger one), jobs appended
    in one go to a new queue under A, B, C in that order are executed in
    the order A, C, B; the callback follows when the three completed. *)
Theorem later_key_listed_earlier_runs_earlier
  {Job : Type} (shadows : Job -> string -> bool)
  (A B C : string) (ja jb jc : Job) (oa ob oc : bool) :
  A <> B -> A <> C -> B <> C ->
  A <> "__proto__" -> B <> "__proto__" -> C <> "__proto__" ->
  listedBefore C B = true ->
  run shadows newQueue
      ([AppendJob A ja; Returned; AppendJob B jb; AppendJob C jc;
        Settled 0 oa; Returned; Settled 0 ob; Returned; Settled 0 oc] ++
       (if oa && ob && oc then [Reaction] else []))
    = Some (newQueue,
            [Started A ja; Started C jc; Started B jb] ++
            (if oa && ob && oc then [OnEmptyQueue] else [])).
Proof.
  intros HAB HAC HBC HA HB HC Horder.
  pose proof (three_appends shadows A B C ja jb jc HA HB HC) as Hrun.
  set (q := {| promise := true; jobs := assign (assign [(A, ja)] B jb) C jc;
               prototype := None; loops := [mkLoop A false]; calls := [];
               reactions := 0 |}) in *.
  assert (Hnd : NoDup (keys (jobs q)))
    by (eapply NoDup_run; [| exact Hrun]; constructor).
  pose proof (three_keys_out_of_order A B C ja jb jc HAB HAC HBC Horder) as Hdel.
  pose proof (drain_then_callback shadows q (mkLoop A false) oa [ob; oc]
                Hnd eq_refl eq_refl) as Hdrain.
  cbn [loopKey loopRejected jobs q] in Hdrain. rewrite Hdel in Hdrain.
  specialize (Hdrain eq_refl).
  change ([AppendJob A ja; Returned; AppendJob B jb; AppendJob C jc;
           Settled 0 oa; Returned; Settled 0 ob; Returned; Settled 0 oc] ++
          (if oa && ob && oc then [Reaction] else []))
    with ([AppendJob A ja; Returned; AppendJob B jb; AppendJob C jc] ++
          (settleAll (oa :: [ob; oc]) ++
           (if oa && ob && oc then [Reaction] else []))).
  rewrite run_app, Hrun.
  replace (if oa && ob && oc then [@Reaction Job] else [])
    with (if false || negb (allOk (oa :: [ob; oc])) then [] else [@Reaction Job])
    by (destruct oa, ob, oc; reflexivity).
  rewrite Hdrain. destruct oa, ob, oc; reflexivity.
Qed.

(** Merge request 17 arrives after "rebase" and is served before it. *)
Lemma later_key_listed_earlier_witness :
  run plainFunction newQueue
      [AppendJob "42" 0%nat; Returned; AppendJob "rebase" 1%nat;
       AppendJob "17" 2%nat;
       Settled 0 true; Returned; Settled 0 true; Returned; Settled 0 true;
       Reaction]
    = Some (newQueue,
            [Started "42" 0%nat; Started "17" 2%nat; Started "rebase" 1%nat;
             OnEmptyQueue]).
Proof.
  apply (later_key_listed_earlier_runs_earlier plainFunction
           "42" "rebase" "17" 0%nat 1%nat 2%nat true true true);
    try discriminate; reflexivity.
Defined.



(** X20.  [onEmptyQueue] is not called by the turn of the loop that finds
    the mapping empty, but by a reaction that runs later.  On a queue
    whose mapping has its original prototype (no job was appended under
    ["__proto__"]), when the last job of a cycle with a single loop
    completes and [appendJob(z, jz)] is called, with z not ["__proto__"],
    before that reaction has run, [jz] is started first, and the callback
    is then called while [jz] is stored and executing. *)
Theorem callback_runs_after_the_next_append
  {Job : Type} (shadows : Job -> string -> bool)
  (q : Queue Job) (a z : string) (ja jz : Job) :
  jobs q = [(a, ja)] ->
  loops q = [mkLoop a false] ->
  calls q = [] ->
  prototype q = None ->
  z <> "__proto__" ->
  exists q',
    run shadows q [Settled 0 true; AppendJob z jz; Returned; Reaction]
      = Some (q', [Started z jz; OnEmptyQueue]) /\
    lookup (jobs q') z = Some jz /\
    loops q' = [mkLoop z false] /\
    promise q' = true /\
    reactions q' = reactions q.
Proof.
  intros Hjobs Hl Hc Hproto Hz. apply String.eqb_neq in Hz.
  cbn [run step]. unfold resume. rewrite Hc, Hl. cbn [nth_error loopKey].
  rewrite Hjobs. cbn. rewrite String.eqb_refl. cbn.
  unfold appendJob, assignJob. cbn [prototype jobs]. rewrite Hz, Hproto.
  cbn. eexists. split; [reflexivity |]. cbn. rewrite String.eqb_refl. auto.
Qed.

(** The callback of the cycle of "a" fires while "z" is running. *)
Lemma callback_runs_after_witness :
  exists q',
    run plainFunction
        {| promise := true; jobs := [("a", 0%nat)]; prototype := None;
           loops := [mkLoop "a" false]; calls := []; reactions := 0 |}
        [Settled 0 true; AppendJob "z" 1%nat; Returned; Reaction]
      = Some (q', [Started "z" 1%nat; OnEmptyQueue]) /\
    lookup (jobs q') "z" = Some 1%nat /\
    loops q' = [mkLoop "z" false] /\
    promise q' = true /\
    reactions q' = 0%nat.
Proof.
  apply (callback_runs_after_the_next_append plainFunction
           {| promise := true; jobs := [("a", 0%nat)]; prototype := None;
              loops := [mkLoop "a" false]; calls := []; reactions := 0 |}
           "a" "z" 0%nat 1%nat eq_refl eq_refl eq_refl eq_refl).
  discriminate.
Defined.

(** X21.  A job appended to a new queue under the key ["__proto__"]
    disables the queue: the assignment sets the prototype of the mapping
    and stores nothing, the loop finds no key, and [this.promise] is left
    holding the promise of [then].  Whatever is appended afterwards, no
    job body is ever called, and [onEmptyQueue] is called at most once. *)
Theorem proto_key_disables_the_queue
  {Job : Type} (shadows : Job -> string -> bool)
  (job : Job) (events : list (Event Job)) (q : Queue Job) out :
  run shadows newQueue (AppendJob "__proto__" job :: events) = Some (q, out) ->
  executions out = 0%nat /\
  (callbacks out <= 1)%nat /\
  promise q = true /\
  loops q = [] /\
  (forall k j, step shadows q (AppendJob k j) = Some (q, [TypeErrorThrown]) \/
               exists q', step shadows q (AppendJob k j) = Some (q', [])).
Proof.
  intros Hrun. cbn [run step] in Hrun.
  unfold appendJob, assignJob in Hrun. cbn in Hrun.
  destruct (run shadows _ events) as [[q1 out1] |] eqn:Hrest; [| discriminate].
  inversion Hrun; subst q1 out; clear Hrun.
  match type of Hrest with
  | run _ ?q0 _ = _ =>
    assert (Hstuck : promise q0 = true /\ loops q0 = [] /\ calls q0 = [])
      by (cbn; auto);
    destruct (stuck_run shadows events q0 q out1 Hstuck Hrest)
      as [[Hp [Hl Hc]] [Hex Hcb]]
  end.
  cbn in Hcb. cbn [app].
  split; [assumption |]. split; [lia |]. split; [assumption |].
  split; [assumption |].
  intros k j. simpl. unfold appendJob.
  destruct (assignJob shadows (prototype q) (jobs q) k j);
    cbn [promise]; rewrite ?Hp; eauto.
Qed.

(** After ["__proto__"], jobs are appended and none runs; one whose key
    names a read-only property of functions makes [appendJob] throw. *)
Lemma proto_key_witness :
  run plainFunction newQueue
      [AppendJob "__proto__" 0%nat; Reaction; AppendJob "a" 1%nat;
       AppendJob "name" 2%nat]
    = Some ({| promise := true; jobs := [("a", 1%nat)]; prototype := Some 0%nat;
               loops := []; calls := []; reactions := 0 |},
            [OnEmptyQueue; TypeErrorThrown]) /\
  executions [OnEmptyQueue; @TypeErrorThrown nat] = 0%nat.
Proof.
  split; [reflexivity |].
  apply (proto_key_disables_the_queue plainFunction 0%nat
           [Reaction; AppendJob "a" 1%nat; AppendJob "name" 2%nat]
           {| promise := true; jobs := [("a", 1%nat)]; prototype := Some 0%nat;
              loops := []; calls := []; reactions := 0 |}
           [OnEmptyQueue; TypeErrorThrown] eq_refl).
Defined.

(** X22.  Between calls, a stored job always has [this.promise]
    assigned: whatever has been called on a queue, re-entrant calls
    included, when no job body is in its synchronous part and
    [this.promise] is undefined, the mapping is empty.  So the test
    [this.promise === undefined] of [appendJob] never finds a job waiting
    without a promise. *)
Theorem undefined_promise_means_empty_mapping
  {Job : Type} (shadows : Job -> string -> bool)
  (events : list (Event Job)) (q : Queue Job) out :
  run shadows newQueue events = Some (q, out) ->
  calls q = [] ->
  promise q = false ->
  jobs q = [].
Proof.
  intros Hrun Hc Hp.
  destruct (assigned_run shadows events newQueue q out
              (fun _ => or_introl (conj eq_refl eq_refl)) Hrun Hp)
    as [[_ Hnil] | Hsome]; [exact Hnil |].
  rewrite Hc in Hsome. discriminate.
Qed.

(** After a re-entrant call and two loops, the first of which has ended. *)
Lemma undefined_promise_witness :
  run plainFunction newQueue
      [AppendJob "a" 0%nat; AppendJob "b" 1%nat; Returned; Returned;
       Settled 0 true; Returned; Settled 0 true; Returned; Settled 0 true]
    = Some ({| promise := false; jobs := []; prototype := None;
               loops := [mkLoop "b" false]; calls := []; reactions := 1 |},
            [Started "a" 0%nat; Started "a" 0%nat;
             Started "b" 1%nat; Started "b" 1%nat]) /\
  jobs {| promise := false; jobs := @nil (string * nat); prototype := None;
          loops := [mkLoop "b" false]; calls := []; reactions := 1 |} = [].
Proof.
  split; [reflexivity |].
  apply (undefined_promise_means_empty_mapping plainFunction
           [AppendJob "a" 0%nat; AppendJob "b" 1%nat; Returned; Returned;
            Settled 0 true; Returned; Settled 0 true; Returned; Settled 0 true]
           {| promise := false; jobs := []; prototype := None;
              loops := [mkLoop "b" false]; calls := []; reactions := 1 |}
           [Started "a" 0%nat; Started "a" 0%nat;
            Started "b" 1%nat; Started "b" 1%nat]
           eq_refl eq_refl eq_refl).
Defined.

End QueueMore.
